(** * Vehicle inspection app: repository, stage differ, damage report, photo scoring

    A shallow embedding of the TypeScript sources
    - [contexts/cars-context.tsx]  (the in-memory car repository),
    - [utils/comparisonReport.ts]  (the structured stage differ),
    - [utils/geminiAnalysis.ts]    (the damage report summary),
    - [app/report.tsx]             (the report screen's photo classification),
    - [utils/imageAnalysis.ts] and [utils/carDetection.ts] (photo scoring),
    followed by the properties established about them.

    JavaScript numbers that are only ever small integers (scores, counters,
    clock readings) are embedded as [Z] or [nat]; numbers that go through
    [Math.random] or a division are binary64 floats ([PrimFloat.float]).
    Arrays are lists, optional fields are [option]. *)

From Stdlib Require Import ZArith List String Ascii Bool PrimFloat Lia.
From Stdlib Require Import DecimalString DecimalPos DecimalZ.
From Stdlib Require Import Sorted.
From stdpp Require Import base option list strings.

Set Warnings "-inexact-float".
Local Open Scope string_scope.
Local Open Scope Z_scope.
Local Open Scope list_scope.

(** ** JavaScript helpers *)

Module Js.

(** [n.toString()] for an integral number [n]. *)
Definition toString (n : Z) : string := NilZero.string_of_int (Z.to_int n).

(** [`${i}`] for an array index or a length. *)
Definition natToString (n : nat) : string := toString (Z.of_nat n).

(** How an [async] function ends: its promise is fulfilled with a value or
    rejected with a reason. *)
Inductive Promise (A : Type) : Type :=
| Fulfilled (a : A)
| Rejected (reason : string).
Arguments Fulfilled {A} a.
Arguments Rejected {A} reason.

(** [a || b] where [a] is a possibly undefined array (arrays are truthy). *)
Definition orArray {A : Type} (a : option (list A)) (b : list A) : list A :=
  match a with
  | Some l => l
  | None => b
  end.

(** [a || b] where [a] is a possibly undefined string (the empty string is
    falsy). *)
Definition orString (a : option string) (b : string) : string :=
  match a with
  | Some s => if decide (s = "") then b else s
  | None => b
  end.

End Js.

(** ** contexts/cars-context.tsx *)

Module CarsContext.
Import Js.

Inductive Status : Type := pending_photos | completed | analyzed.

#[export] Instance Status_eq_dec : EqDecision Status.
Proof. solve_decision. Defined.

Record InspectionReport : Type := mkInspectionReport {
  stage : nat;
  timestamp : Z;
  results : string;
  comparison : option string;
  report_photos : list string
}.

Record Car : Type := mkCar {
  id : string;
  make : string;
  model : string;
  registrationNumber : string;
  photos : list string;
  analysisResults : option string;
  reports : option (list InspectionReport);
  status : Status
}.

(** [Omit<Car, 'id' | 'status' | 'photos'>], the argument of [addCar]. *)
Record CarData : Type := mkCarData {
  data_make : string;
  data_model : string;
  data_registrationNumber : string;
  data_analysisResults : option string;
  data_reports : option (list InspectionReport)
}.

(** The provider's state is the [cars] array; every operation is an [async]
    function that updates it through [setCars(prev => ...)]. *)
Definition Action (A : Type) : Type := list Car -> Promise A * list Car.

#[export] Instance Action_ret : MRet Action :=
  fun A a cars => (Fulfilled a, cars).

#[export] Instance Action_bind : MBind Action :=
  fun A B k m cars =>
    match m cars with
    | (Fulfilled a, cars') => k a cars'
    | (Rejected e, cars') => (Rejected e, cars')
    end.

Definition setCars (update : list Car -> list Car) : Action unit :=
  fun prev => (Fulfilled tt, update prev).

(** [now] is the reading of [Date.now()] taken by the call. *)
Definition addCar (now : Z) (carData : CarData) : Action string :=
  let newCar :=
    {| id := toString now;
       make := data_make carData;
       model := data_model carData;
       registrationNumber := data_registrationNumber carData;
       analysisResults := data_analysisResults carData;
       photos := [];
       status := pending_photos;
       reports := Some [] |} in
  setCars (fun prev => prev ++ [newCar]) ;;
  mret (id newCar).

Definition updateCarPhotos (id' : string) (photos' : list string) : Action unit :=
  setCars (fun prev => (fun car =>
    if decide (id car = id')
    then {| id := id car; make := make car; model := model car;
            registrationNumber := registrationNumber car;
            photos := photos';
            analysisResults := analysisResults car;
            reports := reports car;
            status := completed |}
    else car) <$> prev).

Definition saveAnalysis (now : Z) (id' : string) (results' : string) : Action unit :=
  setCars (fun prev => (fun car =>
    if decide (id car = id') then
      let existingReports := orArray (reports car) [] in
      let nextStage := (length existingReports + 1)%nat in
      let newReport :=
        {| stage := nextStage;
           timestamp := now;
           results := results';
           comparison := None;
           report_photos := photos car |} in
      {| id := id car; make := make car; model := model car;
         registrationNumber := registrationNumber car;
         photos := photos car;
         analysisResults := Some results';
         status := analyzed;
         reports := Some (existingReports ++ [newReport]) |}
    else car) <$> prev).

Definition withComparison (comparison' : string) (r : InspectionReport) : InspectionReport :=
  {| stage := stage r; timestamp := timestamp r; results := results r;
     comparison := Some comparison';
     report_photos := report_photos r |}.

Definition updateLatestReportComparison (id' : string) (comparison' : string) : Action unit :=
  setCars (fun prev => (fun car =>
    match reports car with
    | Some carReports =>
        if decide (id car = id' /\ (0 < length carReports)%nat) then
          let newReports := carReports in
          let lastIndex := (length newReports - 1)%nat in
          let newReports := alter (withComparison comparison') lastIndex newReports in
          {| id := id car; make := make car; model := model car;
             registrationNumber := registrationNumber car;
             photos := photos car;
             analysisResults := analysisResults car;
             status := status car;
             reports := Some newReports |}
        else car
    | None => car
    end) <$> prev).

Definition clearAllCars : Action unit :=
  setCars (fun _ => []).

Definition removeCar (id' : string) : Action unit :=
  setCars (fun prev => filter (fun car => id car <> id') prev).

Definition getCar (cars : list Car) (id' : string) : option Car :=
  snd <$> list_find (fun c => id c = id') cars.

(** The calls a client of the context can make, and the collections that
    can be built from the initial [useState<Car[]>([])] by making them. *)
Inductive Call : Type :=
| CallAddCar (now : Z) (carData : CarData)
| CallUpdateCarPhotos (id' : string) (photos' : list string)
| CallSaveAnalysis (now : Z) (id' : string) (results' : string)
| CallUpdateLatestReportComparison (id' : string) (comparison' : string)
| CallRemoveCar (id' : string)
| CallClearAllCars.

Definition perform (c : Call) : Action unit :=
  match c with
  | CallAddCar now carData => addCar now carData ;; mret tt
  | CallUpdateCarPhotos id' photos' => updateCarPhotos id' photos'
  | CallSaveAnalysis now id' results' => saveAnalysis now id' results'
  | CallUpdateLatestReportComparison id' comparison' =>
      updateLatestReportComparison id' comparison'
  | CallRemoveCar id' => removeCar id'
  | CallClearAllCars => clearAllCars
  end.

Definition step (cars : list Car) (c : Call) : list Car := snd (perform c cars).

Definition run (calls : list Call) : list Car := fold_left step calls [].

Inductive reachable : list Car -> Prop :=
| reachable_initial : reachable []
| reachable_step cars c : reachable cars -> reachable (step cars c).

(** Number of stages of a record. *)
Definition stageCount (car : Car) : nat := length (orArray (reports car) []).

(** "[status] is [analyzed] exactly when the record has a stage." *)
Definition analyzedIffStaged (car : Car) : Prop :=
  status car = analyzed <-> (0 < stageCount car)%nat.

(** "An [analyzed] record has a stage, and a record with a stage is no
    longer [pending_photos]." *)
Definition analyzedOnlyIfStaged (car : Car) : Prop :=
  (status car = analyzed -> (0 < stageCount car)%nat) /\
  ((0 < stageCount car)%nat -> status car <> pending_photos).

(** "If the record has a stage, [analysisResults] is the [results] string
    of its last stage." *)
Definition latestResultsShown (car : Car) : Prop :=
  forall r, last (orArray (reports car) []) = Some r ->
            analysisResults car = Some (results r).

End CarsContext.

(** ** The effects of the photo-scoring code

    The scoring functions are [async], draw from [Math.random] and are
    wrapped in [try]/[catch]. A computation reads the stream of random
    draws of the run and ends normally or by throwing. *)

Module Effects.

Record World : Type := mkWorld {
  randoms : nat -> float;
  drawn : nat
}.

Inductive Completion (A : Type) : Type :=
| Normal (a : A)
| Throw (error : string).
Arguments Normal {A} a.
Arguments Throw {A} error.

Definition Eff (A : Type) : Type := World -> Completion A * World.

#[export] Instance Eff_ret : MRet Eff :=
  fun A a w => (Normal a, w).

#[export] Instance Eff_bind : MBind Eff :=
  fun A B k m w =>
    match m w with
    | (Normal a, w') => k a w'
    | (Throw e, w') => (Throw e, w')
    end.

(** [Math.random()]: the next draw of the stream. *)
Definition Math_random : Eff float :=
  fun w => (Normal (randoms w (drawn w)),
            {| randoms := randoms w; drawn := S (drawn w) |}).

(** [try { body } catch (error) { handler }]. *)
Definition tryCatch {A : Type} (body : Eff A) (handler : string -> Eff A) : Eff A :=
  fun w =>
    match body w with
    | (Normal a, w') => (Normal a, w')
    | (Throw e, w') => handler e w'
    end.

(** [a > b] on numbers. *)
Definition gtb (a b : float) : bool := PrimFloat.ltb b a.

(** [returns m P]: whatever the random draws, [m] ends normally, with a
    value that satisfies [P]. *)
Definition returns {A : Type} (m : Eff A) (P : A -> Prop) : Prop :=
  forall w, exists a w', m w = (Normal a, w') /\ P a.

End Effects.

(** ** utils/imageAnalysis.ts *)

Module ImageAnalysis.
Import Effects.

Record ImageMetadata : Type := mkImageMetadata {
  width : float;
  height : float;
  size : float;
  mimeType : string
}.

Definition getImageMetadata (imageUri : string) : Eff ImageMetadata :=
  mret {| width := 1080; height := 1920; size := 1500000; mimeType := "image/jpeg" |}.

Inductive Resolution : Type := low | medium | high.

Record Details : Type := mkDetails {
  resolution : Resolution;
  hasContent : bool;
  sizeIndicator : string
}.

Record ImageQuality : Type := mkImageQuality {
  isRealPhoto : bool;
  quality : Z;
  details : Details
}.

Definition analyzeImageQuality (imageUri : string) : Eff ImageQuality :=
  tryCatch
    (metadata ← getImageMetadata imageUri;
     let totalPixels := PrimFloat.mul (width metadata) (height metadata) in
     let megapixels := PrimFloat.div totalPixels 1000000 in
     let quality := 70 in
     let resolution := medium in
     let hasContent := true in
     let sizeIndicator := "normal" in
     (* Check resolution *)
     let '(resolution, quality, sizeIndicator, hasContent) :=
       if PrimFloat.ltb megapixels 0.5 then (low, quality - 20, "too_small", false)
       else if gtb megapixels 20 then (high, quality + 10, sizeIndicator, hasContent)
       else if gtb megapixels 2 then (high, quality + 5, sizeIndicator, hasContent)
       else (resolution, quality, sizeIndicator, hasContent) in
     (* Check file size *)
     let '(hasContent, quality, sizeIndicator) :=
       if PrimFloat.ltb (size metadata) 20 then (false, quality - 50, "too_small_file")
       else if gtb (size metadata) 10000 then (hasContent, quality + 5, sizeIndicator)
       else if gtb (size metadata) 200 && PrimFloat.ltb (size metadata) 10000
            then (hasContent, quality + 10, "typical")
       else (hasContent, quality, sizeIndicator) in
     let isRealPhoto := hasContent && (40 <? quality) in
     mret {| isRealPhoto := isRealPhoto;
             quality := Z.min 100 (Z.max 40 quality);
             details := {| resolution := resolution;
                           hasContent := hasContent;
                           sizeIndicator := sizeIndicator |} |})
    (fun error =>
       mret {| isRealPhoto := true;
               quality := 70;
               details := {| resolution := medium; hasContent := true;
                             sizeIndicator := "unknown" |} |}).

Record Brightness : Type := mkBrightness {
  brightness : float;
  isTooDark : bool;
  isTooLight : bool
}.

Definition analyzeBrightness (imageUri : string) : Eff Brightness :=
  tryCatch
    (metadata ← getImageMetadata imageUri;
     random ← Math_random;
     let brightness := PrimFloat.add 0.3 (PrimFloat.mul random 0.4) in
     mret {| brightness := brightness;
             isTooDark := PrimFloat.ltb brightness 0.25;
             isTooLight := gtb brightness 0.85 |})
    (fun error =>
       mret {| brightness := 0.5; isTooDark := false; isTooLight := false |}).

Record Blur : Type := mkBlur {
  blur : float;
  isBlurry : bool
}.

Definition analyzeBlur (imageUri : string) : Eff Blur :=
  tryCatch
    (blur ← Math_random;
     mret {| blur := blur; isBlurry := gtb blur 0.7 |})
    (fun error => mret {| blur := 0.3; isBlurry := false |}).

End ImageAnalysis.

(** ** utils/carDetection.ts *)

Module CarDetection.
Import Js Effects.

Inductive CarAngle : Type := Front | Rear | Side.

#[export] Instance CarAngle_eq_dec : EqDecision CarAngle.
Proof. solve_decision. Defined.

Module FramingCheck.
Record t : Type := mk {
  isOptimal : bool;
  hint : string;
  score : Z
}.
End FramingCheck.

Module LightingCheck.
Record t : Type := mk {
  isOptimal : bool;
  hint : string;
  score : Z;
  brightness : float;
  hasGlare : bool;
  hasShadows : bool
}.
End LightingCheck.

Module QualityCheck.
Record t : Type := mk {
  isOptimal : bool;
  hint : string;
  score : Z;
  blur : float
}.
End QualityCheck.

Record DetectionResult : Type := mkDetectionResult {
  carDetected : bool;
  angle : option CarAngle;
  angleScore : Z;
  framing : option FramingCheck.t;
  lighting : option LightingCheck.t;
  quality : option QualityCheck.t;
  totalScore : Z;
  isAccepted : bool;
  hint : string
}.

Definition QUALITY_THRESHOLD : Z := 65.

Definition detectAngle (imageUri : string) : Eff CarAngle :=
  tryCatch
    (analysis ← ImageAnalysis.analyzeImageQuality imageUri;
     let brightness := 0.5%float in
     let quality :=
       if ImageAnalysis.quality analysis =? 0 then 50 else ImageAnalysis.quality analysis in
     if (70 <? quality) && gtb brightness 0.45 && PrimFloat.ltb brightness 0.75 then
       random ← Math_random;
       if PrimFloat.ltb random 0.5 then mret Front
       else if PrimFloat.ltb random 0.85 then mret Rear
       else mret Side
     else if 50 <? quality then
       random ← Math_random;
       if PrimFloat.ltb random 0.35 then mret Front
       else if PrimFloat.ltb random 0.7 then mret Rear
       else mret Side
     else
       random ← Math_random;
       if PrimFloat.ltb random 0.33 then mret Front
       else if PrimFloat.ltb random 0.66 then mret Rear
       else mret Side)
    (fun error => mret Front).

Definition checkFraming (imageUri : string) : Eff FramingCheck.t :=
  tryCatch
    (analysis ← ImageAnalysis.analyzeImageQuality imageUri;
     match ImageAnalysis.resolution (ImageAnalysis.details analysis) with
     | ImageAnalysis.low =>
         mret (FramingCheck.mk false
                 "Move closer to the car for better detail and clarity." 10)
     | _ =>
         if ImageAnalysis.quality analysis <? 50 then
           mret (FramingCheck.mk false
                   "Ensure the car fills most of the frame. Move closer." 12)
         else
           mret (FramingCheck.mk true "Framing perfect." 24)
     end)
    (fun error => mret (FramingCheck.mk false "Could not analyze framing." 10)).

Definition checkLighting (imageUri : string) : Eff LightingCheck.t :=
  tryCatch
    (brightAnalysis ← ImageAnalysis.analyzeBrightness imageUri;
     let score := 24 in
     let hint := "Lighting optimal." in
     let isOptimal := true in
     let hasGlare := false in
     let hasShadows := false in
     let '(hint, score, hasGlare, hasShadows, isOptimal) :=
       if ImageAnalysis.isTooDark brightAnalysis then
         ("Image is too dark. Move to brighter area with good light.",
          8, hasGlare, true, false)
       else if ImageAnalysis.isTooLight brightAnalysis then
         ("Too much glare/reflection. Move away from bright light.",
          8, true, hasShadows, false)
       else if PrimFloat.ltb (ImageAnalysis.brightness brightAnalysis) 0.4 then
         ("Lighting too low. Take photo in daylight or well-lit area.",
          12, hasGlare, true, false)
       else if gtb (ImageAnalysis.brightness brightAnalysis) 0.8 then
         ("Too bright/overexposed. Reduce glare and shadows.",
          12, true, hasShadows, false)
       else (hint, 24, hasGlare, hasShadows, true) in
     mret (LightingCheck.mk isOptimal hint score
             (ImageAnalysis.brightness brightAnalysis) hasGlare hasShadows))
    (fun error =>
       mret (LightingCheck.mk false "Could not analyze lighting." 10 0.5 false false)).

Definition checkQuality (imageUri : string) : Eff QualityCheck.t :=
  tryCatch
    (blurAnalysis ← ImageAnalysis.analyzeBlur imageUri;
     qualityAnalysis ← ImageAnalysis.analyzeImageQuality imageUri;
     let score := 24 in
     let hint := "Image quality excellent." in
     let isOptimal := true in
     let '(hint, score, isOptimal) :=
       if ImageAnalysis.isBlurry blurAnalysis then
         ("Image is blurry. Hold camera steady and retake photo.", 5, false)
       else if gtb (ImageAnalysis.blur blurAnalysis) 0.5 then
         ("Motion blur detected. Hold camera still when taking photo.", 10, false)
       else if ImageAnalysis.quality qualityAnalysis <? 45 then
         ("Image quality too low. Use higher resolution camera.", 8, false)
       else if ImageAnalysis.quality qualityAnalysis <? 55 then
         ("Image is not clear enough. This is not a car photo.", 12, false)
       else (hint, 24, true) in
     mret (QualityCheck.mk isOptimal hint score (ImageAnalysis.blur blurAnalysis)))
    (fun error => mret (QualityCheck.mk true "Quality OK." 20 0)).

Definition angleNames (a : CarAngle) : string :=
  match a with
  | Front => "Front"
  | Rear => "Back/Rear"
  | Side => "Side"
  end.

(** [expectedAngle && angle !== expectedAngle] *)
Definition wrongAngle (expectedAngle : option CarAngle) (angle : CarAngle) : bool :=
  match expectedAngle with
  | Some expected => bool_decide (angle <> expected)
  | None => false
  end.

Definition detectCar (imageUri : string) (expectedAngle : option CarAngle)
  : Eff DetectionResult :=
  tryCatch
    (qualityAnalysis ← ImageAnalysis.analyzeImageQuality imageUri;
     if negb (ImageAnalysis.hasContent (ImageAnalysis.details qualityAnalysis))
        || (ImageAnalysis.quality qualityAnalysis <? 60) then
       mret {| carDetected := false;
               totalScore := 0;
               angleScore := 0;
               isAccepted := false;
               hint := "Photo is too unclear or not a car. Please take a clear photo of the car.";
               angle := None; framing := None; lighting := None; quality := None |}
     else
       angle ← detectAngle imageUri;
       if wrongAngle expectedAngle angle then
         mret {| carDetected := false;
                 totalScore := 0;
                 angleScore := 0;
                 isAccepted := false;
                 hint := "Wrong angle! Expected "
                           +:+ from_option angleNames "" expectedAngle
                           +:+ ", but detected " +:+ angleNames angle
                           +:+ ". Please take a photo from the correct angle.";
                 angle := None; framing := None; lighting := None; quality := None |}
       else
         let angleScore := 25 in
         framing ← checkFraming imageUri;
         lighting ← checkLighting imageUri;
         quality ← checkQuality imageUri;
         let totalScore :=
           angleScore + FramingCheck.score framing + LightingCheck.score lighting
           + QualityCheck.score quality in
         let isAccepted := QUALITY_THRESHOLD <=? totalScore in
         let hint :=
           if negb isAccepted then
             if negb (FramingCheck.isOptimal framing) then FramingCheck.hint framing
             else if negb (LightingCheck.isOptimal lighting) then LightingCheck.hint lighting
             else if negb (QualityCheck.isOptimal quality) then QualityCheck.hint quality
             else "Photo quality is too low. Score: " +:+ toString totalScore
                    +:+ "/100 (need " +:+ toString QUALITY_THRESHOLD +:+ "/100)"
           else "Perfect! Quality Score: " +:+ toString totalScore +:+ "/100" in
         mret {| carDetected := isAccepted;
                 angle := Some angle;
                 angleScore := angleScore;
                 framing := Some framing;
                 lighting := Some lighting;
                 quality := Some quality;
                 totalScore := totalScore;
                 isAccepted := isAccepted;
                 hint := hint |})
    (fun error =>
       mret {| carDetected := true;
               angle := Some Front;
               angleScore := 20;
               framing := Some (FramingCheck.mk true "OK" 20);
               lighting := Some (LightingCheck.mk true "OK" 20 0.5 false false);
               quality := Some (QualityCheck.mk true "OK" 20 0);
               totalScore := 80;
               isAccepted := false;
               hint := "Please ensure good angle, framing, and lighting." |}).

Record PhotoConfig : Type := mkPhotoConfig {
  label : string;
  expectedAngle : CarAngle
}.

Definition PHOTO_CONFIG : list PhotoConfig :=
  [ {| label := "Front"; expectedAngle := Front |};
    {| label := "Back"; expectedAngle := Rear |};
    {| label := "Left Side"; expectedAngle := Side |};
    {| label := "Right Side"; expectedAngle := Side |};
    {| label := "Interior 1"; expectedAngle := Front |};
    {| label := "Interior 2"; expectedAngle := Front |};
    {| label := "Dashboard"; expectedAngle := Front |};
    {| label := "Engine"; expectedAngle := Front |};
    {| label := "Trunk"; expectedAngle := Rear |} ].

(** The [angleMap] table of [getExpectedAngle]; a number that is not one of
    its keys has no entry. *)
Definition angleMap (photoNumber : Z) : option CarAngle :=
  match photoNumber with
  | 0 => Some Front
  | 1 => Some Rear
  | 2 => Some Side
  | 3 => Some Side
  | 4 => Some Front
  | 5 => Some Front
  | 6 => Some Front
  | 7 => Some Front
  | 8 => Some Rear
  | _ => None
  end.

(** [angleMap[photoNumber] || 'Front'] *)
Definition getExpectedAngle (photoNumber : Z) : CarAngle :=
  default Front (angleMap photoNumber).

End CarDetection.

(** ** utils/geminiAnalysis.ts *)

Module GeminiAnalysis.
Import Js.

Inductive Severity : Type := none | minor | moderate | severe.

(** The string a severity is at run time. *)
Definition severityName (s : Severity) : string :=
  match s with
  | none => "none"
  | minor => "minor"
  | moderate => "moderate"
  | severe => "severe"
  end.

#[export] Instance Severity_eq_dec : EqDecision Severity.
Proof. solve_decision. Defined.

Record GeminiAnalysisResult : Type := mkGeminiAnalysisResult {
  hasDamage : bool;
  damageType : string;
  severity : Severity;
  description : string;
  recommendations : list string;
  imageComplete : bool;
  completenessNote : option string
}.

Record DamageReport : Type := mkDamageReport {
  totalImages : nat;
  damageCount : nat;
  averageSeverity : string;
  summary : string
}.

Definition severityOrder (s : Severity) : Z :=
  match s with
  | none => 0
  | minor => 1
  | moderate => 2
  | severe => 3
  end.

(** [Math.round(sum / count)] for integers [sum >= 0] and [count > 0]:
    the quotient rounded to the nearest integer, halves upwards. *)
Definition roundedQuotient (sum count : Z) : Z := (2 * sum + count) / (2 * count).

Definition generateDamageReport (results : list GeminiAnalysisResult) : DamageReport :=
  let totalImages := length results in
  let damageCount := length (filter (fun r => hasDamage r) results) in
  let severities := severity <$> filter (fun r => hasDamage r) results in
  let averageSeverity :=
    if (0 <? length severities)%nat then
      let average :=
        roundedQuotient (fold_left (fun sum s => sum + severityOrder s) severities 0)
                        (Z.of_nat (length severities)) in
      orString
        (severityName ∘ snd <$>
           list_find (fun k => severityOrder k = average) [none; minor; moderate; severe])
        "minor"
    else "none" in
  let summary :=
    if (damageCount =? 0)%nat then "No damage detected in any photos"
    else "Damage detected in " +:+ natToString damageCount +:+ "/"
           +:+ natToString totalImages +:+ " photos. Average severity: "
           +:+ averageSeverity in
  {| totalImages := totalImages;
     damageCount := damageCount;
     averageSeverity := averageSeverity;
     summary := summary |}.

(** *** [analyzeBatchCarDamage]

    The vision service is outside the program: a call to
    [analyzeCarDamageWithGemini] reads and changes the state [Service] of the
    outside world (network, model) and ends with a result or by throwing. *)

Section Batch.
Context {Service : Type}.
Variable analyzeCarDamageWithGemini :
  string -> string -> Service -> Effects.Completion GeminiAnalysisResult * Service.

(** The result pushed by the [catch] block. *)
Definition analysisFailed : GeminiAnalysisResult :=
  {| hasDamage := false;
     damageType := "Analysis Failed";
     severity := none;
     description := "Could not analyze image due to network or API error.";
     recommendations := [];
     imageComplete := false;
     completenessNote := Some "Analysis failed" |}.

(** The body of the loop for image [i]. Destructuring [{ label }] from
    [PHOTO_CONFIG[i]] throws when [i] is past the table; the throw is caught
    like one of the service. *)
Definition analyzeImage (i : nat) (imageUri : string) (s : Service)
  : GeminiAnalysisResult * Service :=
  match CarDetection.PHOTO_CONFIG !! i with
  | Some config =>
      match analyzeCarDamageWithGemini imageUri (CarDetection.label config) s with
      | (Effects.Normal result, s') => (result, s')
      | (Effects.Throw _, s') => (analysisFailed, s')
      end
  | None => (analysisFailed, s)
  end.

(** The loop from index [i] on, [imageUris] being the images not yet
    analysed. *)
Fixpoint analyzeFrom (i : nat) (imageUris : list string)
    (results : list GeminiAnalysisResult) (s : Service)
  : list GeminiAnalysisResult * Service :=
  match imageUris with
  | [] => (results, s)
  | imageUri :: rest =>
      let '(result, s') := analyzeImage i imageUri s in
      analyzeFrom (S i) rest (results ++ [result]) s'
  end.

Definition analyzeBatchCarDamage (imageUris : list string) (s : Service)
  : list GeminiAnalysisResult * Service :=
  analyzeFrom 0 imageUris [] s.

(** What the loop body can push for image [i]: the synthetic result, or a
    result the service returned for the image and the label of slot [i];
    past the table only the synthetic result. *)
Definition pushedFor (i : nat) (imageUri : string) (r : GeminiAnalysisResult) : Prop :=
  (CarDetection.PHOTO_CONFIG !! i = None -> r = analysisFailed)
  /\ (r = analysisFailed
      \/ exists config s0 s1,
           CarDetection.PHOTO_CONFIG !! i = Some config
           /\ analyzeCarDamageWithGemini imageUri (CarDetection.label config) s0
              = (Effects.Normal r, s1)).

End Batch.

End GeminiAnalysis.

(** ** app/report.tsx: the photo lists of the report screen *)

Module ReportScreen.
Import GeminiAnalysis.

(** [{ ...r, index: i }] *)
Record IndexedResult : Type := mkIndexedResult {
  result : GeminiAnalysisResult;
  index : nat
}.

Definition indexed (results : list GeminiAnalysisResult) : list IndexedResult :=
  imap (fun i r => {| result := r; index := i |}) results.

Definition rejectedPhotos (results : list GeminiAnalysisResult) : list IndexedResult :=
  filter (fun r => negb (imageComplete (result r))) (indexed results).

Definition damagedPhotos (results : list GeminiAnalysisResult) : list IndexedResult :=
  filter (fun r => imageComplete (result r) && hasDamage (result r)) (indexed results).

Definition cleanPhotos (results : list GeminiAnalysisResult) : list IndexedResult :=
  filter (fun r => imageComplete (result r) && negb (hasDamage (result r)))
    (indexed results).

(** The stages the screen offers: the car's reports, or one stage made of
    the results passed with the route when the car has none. [now] is the
    reading of [Date.now()]. *)
Definition displayedReports (currentCar : option CarsContext.Car)
    (initialResultsString : option string) (now : Z)
  : list CarsContext.InspectionReport :=
  let fallback :=
    [ {| CarsContext.stage := 1;
         CarsContext.timestamp := now;
         CarsContext.results := Js.orString initialResultsString "[]";
         CarsContext.comparison := None;
         CarsContext.report_photos := from_option CarsContext.photos [] currentCar |} ] in
  match currentCar ≫= CarsContext.reports with
  | Some carReports => if (0 <? length carReports)%nat then carReports else fallback
  | None => fallback
  end.

(** [useState(reports.length - 1)] and [reports[activeStageIndex]]. *)
Definition initialActiveStageIndex (reports : list CarsContext.InspectionReport) : nat :=
  (length reports - 1)%nat.

Definition activeReport (reports : list CarsContext.InspectionReport)
    (activeStageIndex : nat) : option CarsContext.InspectionReport :=
  reports !! activeStageIndex.

End ReportScreen.

(** ** utils/comparisonReport.ts *)

Module ComparisonReport.
Import Js GeminiAnalysis.

(** The values stored in the [any]-typed fields of a change: [null] or a
    string. *)
Inductive Any : Type :=
| null
| str (s : string).

Inductive ChangeType : Type := added | removed | changed | unchanged.

Record FieldChange : Type := mkFieldChange {
  field : string;
  oldValue : Any;
  newValue : Any;
  type : ChangeType
}.

Record AngleDiff : Type := mkAngleDiff {
  label : string;
  index : nat;
  hasChanges : bool;
  changes : list FieldChange
}.

Record StructuredDiffSummary : Type := mkStructuredDiffSummary {
  summary : string;
  angles : list AngleDiff;
  overallConfirm : bool
}.

Definition yesNo (b : bool) : string := if b then "Yes" else "No".

(** The changes pushed for slot [i] by one iteration of the loop. *)
Definition angleChangesAt (oldResults newResults : list GeminiAnalysisResult) (i : nat)
  : list FieldChange :=
  let oldItem := oldResults !! i in
  let newItem := newResults !! i in
  match oldItem, newItem with
  | None, Some _ =>
      [ {| field := "Record"; oldValue := null; newValue := str "Present"; type := added |} ]
  | Some _, None =>
      [ {| field := "Record"; oldValue := str "Present"; newValue := null; type := removed |} ]
  | Some oldItem, Some newItem =>
      (* 1. Severity *)
      (if decide (severity oldItem <> severity newItem) then
         [ {| field := "Severity";
              oldValue := str (severityName (severity oldItem));
              newValue := str (severityName (severity newItem));
              type := changed |} ]
       else [])
      (* 2. Damage Type *)
      ++ (if decide (damageType oldItem <> damageType newItem) then
            [ {| field := "Damage Type";
                 oldValue := str (damageType oldItem);
                 newValue := str (damageType newItem);
                 type := changed |} ]
          else [])
      (* 3. Description *)
      ++ (if decide (description oldItem <> description newItem) then
            [ {| field := "Description";
                 oldValue := str (description oldItem);
                 newValue := str (description newItem);
                 type := changed |} ]
          else [])
      (* 4. Damage Boolean *)
      ++ (if decide (hasDamage oldItem <> hasDamage newItem) then
            [ {| field := "Has Damage";
                 oldValue := str (yesNo (hasDamage oldItem));
                 newValue := str (yesNo (hasDamage newItem));
                 type := changed |} ]
          else [])
  | None, None => []
  end.

(** One iteration of the [for] loop on the pair
    [(anglesDiff, differencesFound)]. *)
Definition iteration (oldResults newResults : list GeminiAnalysisResult)
  (state : list AngleDiff * bool) (i : nat) : list AngleDiff * bool :=
  let '(anglesDiff, differencesFound) := state in
  let label :=
    orString (CarDetection.label <$> CarDetection.PHOTO_CONFIG !! i)
             ("Angle " +:+ natToString (i + 1)) in
  let angleChanges := angleChangesAt oldResults newResults i in
  let differencesFound :=
    if (0 <? length angleChanges)%nat then true else differencesFound in
  (anglesDiff ++ [ {| label := label;
                      index := i;
                      hasChanges := (0 <? length angleChanges)%nat;
                      changes := angleChanges |} ],
   differencesFound).

(** The state when the loop [for (let i = 0; i < maxLen; i++)] ends. *)
Definition loop (oldResults newResults : list GeminiAnalysisResult)
  : list AngleDiff * bool :=
  let maxLen := Nat.max (length oldResults) (length newResults) in
  fold_left (iteration oldResults newResults) (seq 0 maxLen) ([], false).

Definition compareStructuredReports (oldResults newResults : list GeminiAnalysisResult)
  : StructuredDiffSummary :=
  let '(anglesDiff, differencesFound) := loop oldResults newResults in
  {| summary := if differencesFound then "Differences detected between reports."
                else "No significant structural differences.";
     angles := filter (fun a => hasChanges a) anglesDiff;
     overallConfirm := differencesFound |}.

(** The entry that iteration [i] pushes on [anglesDiff]. *)
Definition angleDiffAt (oldResults newResults : list GeminiAnalysisResult) (i : nat)
  : AngleDiff :=
  {| label := orString (CarDetection.label <$> CarDetection.PHOTO_CONFIG !! i)
                       ("Angle " +:+ natToString (i + 1));
     index := i;
     hasChanges := (0 <? length (angleChangesAt oldResults newResults i))%nat;
     changes := angleChangesAt oldResults newResults i |}.

(** The four field comparisons of a slot present in both arrays, as the
    change each one reports. *)
Definition severityChange (oldItem newItem : GeminiAnalysisResult) : FieldChange :=
  {| field := "Severity";
     oldValue := str (severityName (severity oldItem));
     newValue := str (severityName (severity newItem));
     type := changed |}.

Definition damageTypeChange (oldItem newItem : GeminiAnalysisResult) : FieldChange :=
  {| field := "Damage Type";
     oldValue := str (damageType oldItem);
     newValue := str (damageType newItem);
     type := changed |}.

Definition descriptionChange (oldItem newItem : GeminiAnalysisResult) : FieldChange :=
  {| field := "Description";
     oldValue := str (description oldItem);
     newValue := str (description newItem);
     type := changed |}.

Definition hasDamageChange (oldItem newItem : GeminiAnalysisResult) : FieldChange :=
  {| field := "Has Damage";
     oldValue := str (if hasDamage oldItem then "Yes" else "No");
     newValue := str (if hasDamage newItem then "Yes" else "No");
     type := changed |}.

(** A change read in the other direction: old and new values exchanged,
    [added] and [removed] exchanged. *)
Definition swapType (t : ChangeType) : ChangeType :=
  match t with
  | added => removed
  | removed => added
  | changed => changed
  | unchanged => unchanged
  end.

Definition swapChange (ch : FieldChange) : FieldChange :=
  {| field := field ch;
     oldValue := newValue ch;
     newValue := oldValue ch;
     type := swapType (type ch) |}.

Definition swapAngle (a : AngleDiff) : AngleDiff :=
  {| label := label a;
     index := index a;
     hasChanges := hasChanges a;
     changes := swapChange <$> changes a |}.

(** The two arrays agree on the four compared fields of a slot. *)
Definition sameFields (oldItem newItem : GeminiAnalysisResult) : Prop :=
  severity oldItem = severity newItem
  /\ damageType oldItem = damageType newItem
  /\ description oldItem = description newItem
  /\ hasDamage oldItem = hasDamage newItem.

End ComparisonReport.

(** ** Predicates on records and calls used in the statements below *)

Module CarsInvariants.
Import Js CarsContext.

(** The stages of a record are numbered 1, 2, 3, ... in the order of the
    list. *)
Definition stagesNumbered (car : Car) : Prop :=
  forall (j : nat) r, orArray (reports car) [] !! j = Some r -> stage r = S j.

(** A record as [addCar] leaves it has its [reports] array, and as long as
    it is [pending_photos] it has neither photos nor stages. *)
Definition startsEmpty (car : Car) : Prop :=
  is_Some (reports car)
  /\ (status car = pending_photos -> photos car = [] /\ reports car = Some []).

(** What a stage records of an inspection: everything but the comparison
    text. *)
Definition sameSnapshot (r r' : InspectionReport) : Prop :=
  stage r' = stage r /\ timestamp r' = timestamp r
  /\ results r' = results r /\ report_photos r' = report_photos r.

(** [car'] is [car] later on: the same vehicle, with every stage [car] had
    still in its place. *)
Definition keepsHistory (car car' : Car) : Prop :=
  id car' = id car /\ make car' = make car /\ model car' = model car
  /\ registrationNumber car' = registrationNumber car
  /\ forall (j : nat) r, orArray (reports car) [] !! j = Some r ->
       exists r', orArray (reports car') [] !! j = Some r' /\ sameSnapshot r r'.

(** The calls that remove records. *)
Definition removes (c : Call) : bool :=
  match c with
  | CallRemoveCar _ | CallClearAllCars => true
  | _ => false
  end.

(** [{ ...car, photos, status: 'completed' }] *)
Definition withPhotos (photos' : list string) (car : Car) : Car :=
  {| id := id car; make := make car; model := model car;
     registrationNumber := registrationNumber car;
     photos := photos'; analysisResults := analysisResults car;
     reports := reports car; status := completed |}.

(** The record [saveAnalysis] makes of [car] at clock reading [now]. *)
Definition withAnalysis (now : Z) (results' : string) (car : Car) : Car :=
  {| id := id car; make := make car; model := model car;
     registrationNumber := registrationNumber car;
     photos := photos car; analysisResults := Some results';
     reports := Some (orArray (reports car) [] ++
                      [ {| stage := length (orArray (reports car) []) + 1;
                           timestamp := now; results := results';
                           comparison := None; report_photos := photos car |} ]);
     status := analyzed |}.

(** The record [addCar] creates at clock reading [now]. *)
Definition freshCar (now : Z) (carData : CarData) : Car :=
  {| id := toString now; make := data_make carData; model := data_model carData;
     registrationNumber := data_registrationNumber carData;
     photos := []; analysisResults := data_analysisResults carData;
     reports := Some []; status := pending_photos |}.

End CarsInvariants.

(** ** The screens that call the repository *)

Module Screens.
Import Js CarsContext.

(** [router.push({ pathname, params })] *)
Record Route : Type := mkRoute {
  pathname : string;
  params : list (string * string)
}.

(** A string used as a condition: undefined and the empty string are
    falsy. *)
Definition truthy (s : option string) : bool :=
  match s with
  | Some s => bool_decide (s <> "")
  | None => false
  end.

(** [handleCarPress] of the cars screen. *)
Definition handleCarPress (car : Car) : Route :=
  if bool_decide (status car = analyzed) && truthy (analysisResults car) then
    {| pathname := "/report";
       params := [("inspectionId", id car);
                  ("results", default "" (analysisResults car))] |}
  else if bool_decide (status car = completed) then
    {| pathname := "/photos"; params := [("carId", id car); ("mode", "review")] |}
  else
    {| pathname := "/photos"; params := [("carId", id car); ("mode", "upload")] |}.

(** [claimCars] of the claims screen. *)
Definition claimCars (cars : list Car) : list Car :=
  filter (fun c => bool_decide (status c = analyzed) && truthy (analysisResults c)) cars.

(** *** The photos screen *)

Record Photo : Type := mkPhoto { uri : string }.

Definition TOTAL_PHOTOS : nat := 9.

Definition initPhotos (currentCar : option Car) : list Photo :=
  match currentCar with
  | Some car =>
      if (0 <? length (photos car))%nat then
        let loaded := (fun uri => {| uri := uri |}) <$> photos car in
        let padding := replicate (TOTAL_PHOTOS - length loaded) {| uri := "" |} in
        loaded ++ padding
      else replicate TOTAL_PHOTOS {| uri := "" |}
  | None => replicate TOTAL_PHOTOS {| uri := "" |}
  end.

(** [photos.filter(p => p.uri)] *)
Definition photosWithUri (photos : list Photo) : list Photo :=
  filter (fun p => uri p <> "") photos.

(** [handleSave]: the alert shown when there is no photo leaves the
    repository alone. *)
Definition handleSave (carId : string) (photos : list Photo) : Action unit :=
  let photosWithUri := photosWithUri photos in
  if (length photosWithUri =? 0)%nat then mret tt
  else updateCarPhotos carId (uri <$> photosWithUri).

Section Analyze.
Context {Service : Type}.
Variable analyzeCarDamageWithGemini :
  string -> string -> Service
  -> Effects.Completion GeminiAnalysis.GeminiAnalysisResult * Service.
(** [JSON.stringify] on an array of results. *)
Variable JSON_stringify : list GeminiAnalysis.GeminiAnalysisResult -> string.

(** [handleAnalyze]: what it does to the outside world and the repository,
    and where it navigates. [now] is the clock reading of [saveAnalysis]. *)
Definition handleAnalyze (now : Z) (carId : string) (photos : list Photo)
    (s : Service) (cars : list Car) : option Route * Service * list Car :=
  let photosWithUri := photosWithUri photos in
  if (length photosWithUri =? 0)%nat then (None, s, cars)
  else
    let uris := uri <$> photosWithUri in
    (* Ensure photos are saved first *)
    let cars := snd (updateCarPhotos carId uris cars) in
    let '(results, s) :=
      GeminiAnalysis.analyzeBatchCarDamage analyzeCarDamageWithGemini uris s in
    let resultsJson := JSON_stringify results in
    let cars := snd (saveAnalysis now carId resultsJson cars) in
    (Some {| pathname := "/report";
             params := [("inspectionId", carId); ("results", resultsJson)] |},
     s, cars).

End Analyze.

End Screens.

(** ** Sample data used in the examples below *)

Module Samples.
Import CarsContext GeminiAnalysis.

Definition toyota : CarData :=
  {| data_make := "Toyota"; data_model := "Camry";
     data_registrationNumber := "ABC123";
     data_analysisResults := None; data_reports := None |}.

Definition honda : CarData :=
  {| data_make := "Honda"; data_model := "Civic";
     data_registrationNumber := "XYZ789";
     data_analysisResults := None; data_reports := None |}.

(** A clean, verified photo. *)
Definition cleanResult : GeminiAnalysisResult :=
  {| hasDamage := false; damageType := "None"; severity := none;
     description := "The paint looks pristine here, no issues found.";
     recommendations := []; imageComplete := true; completenessNote := None |}.

(** The same slot with a dent found at the next inspection. *)
Definition dentedResult : GeminiAnalysisResult :=
  {| hasDamage := true; damageType := "Dent"; severity := moderate;
     description := "I noticed a nasty dent on the door panel.";
     recommendations := ["Get professional inspection"];
     imageComplete := true; completenessNote := None |}.

(** What the vision model can answer for a photo of the wrong angle that
    nevertheless shows damage. *)
Definition rejectedDamagedResult : GeminiAnalysisResult :=
  {| hasDamage := true; damageType := "Deep Scratch"; severity := severe;
     description := "This is not the requested view, but I can see a deep scratch.";
     recommendations := []; imageComplete := false;
     completenessNote := Some "Wrong angle" |}.

End Samples.

Module MoreSamples.
Import CarsContext.

(** The Toyota after its first analysis. *)
Definition analyzedToyota : Car :=
  {| id := "1000"; make := "Toyota"; model := "Camry";
     registrationNumber := "ABC123"; photos := [];
     analysisResults := Some "[]";
     reports := Some [ {| stage := 1; timestamp := 2000; results := "[]";
                          comparison := None; report_photos := [] |} ];
     status := analyzed |}.

End MoreSamples.

(** * Properties *)

(** ** The car repository *)

Section Repository.
Import Js CarsContext.

Implicit Types (cars : list Car) (car : Car) (c : Call).

Lemma run_snoc calls c : run (calls ++ [c]) = step (run calls) c.
Proof. unfold run. by rewrite fold_left_app. Qed.

Lemma reachable_run calls : reachable (run calls).
Proof.
  induction calls as [|c calls IH] using rev_ind.
  - apply reachable_initial.
  - rewrite run_snoc. by apply reachable_step.
Qed.

Lemma reachable_is_run cars : reachable cars -> exists calls, cars = run calls.
Proof.
  induction 1 as [|cars c _ [calls ->]].
  - by exists [].
  - exists (calls ++ [c]). by rewrite run_snoc.
Qed.

(** A property of single records that holds of a freshly added record and
    survives the three per-record updates holds throughout a collection
    after any call. *)
Lemma step_Forall (P : Car -> Prop) cars c :
  (forall now carData, c = CallAddCar now carData ->
     P {| id := toString now; make := data_make carData;
          model := data_model carData;
          registrationNumber := data_registrationNumber carData;
          photos := []; analysisResults := data_analysisResults carData;
          reports := Some []; status := pending_photos |}) ->
  (forall car car', P car -> car' ∈ step [car] c -> P car') ->
  Forall P cars -> Forall P (step cars c).
Proof.
  intros Hnew Hupd Hall.
  assert (Hmap : forall f : Car -> Car,
             (forall car, P car -> P (f car)) -> Forall P (f <$> cars)).
  { intros f Hf. apply Forall_fmap. eapply Forall_impl; [exact Hall|]. exact Hf. }
  destruct c as [now carData|id' photos'|now id' results'|id' comparison'|id'|];
    cbn in Hupd |- *.
  - apply Forall_app. split; [exact Hall|]. constructor; [|constructor]. by eapply Hnew.
  - apply Hmap. intros car Hcar. eapply Hupd; [exact Hcar|]. cbn. by left.
  - apply Hmap. intros car Hcar. eapply Hupd; [exact Hcar|]. cbn. by left.
  - apply Hmap. intros car Hcar. eapply Hupd; [exact Hcar|]. cbn. by left.
  - apply Forall_forall. intros car [_ Hin]%list_elem_of_filter.
    revert car Hin. by apply Forall_forall.
  - constructor.
Qed.

(** What a call does to a one-record collection, record by record. *)
Lemma step_single car car' c :
  car' ∈ step [car] c ->
  car' = car \/
  (exists now carData, c = CallAddCar now carData /\
     car' = {| id := toString now; make := data_make carData;
               model := data_model carData;
               registrationNumber := data_registrationNumber carData;
               photos := []; analysisResults := data_analysisResults carData;
               reports := Some []; status := pending_photos |}) \/
  (exists id' photos', c = CallUpdateCarPhotos id' photos' /\
     car' = {| id := id car; make := make car; model := model car;
               registrationNumber := registrationNumber car;
               photos := photos'; analysisResults := analysisResults car;
               reports := reports car; status := completed |}) \/
  (exists now id' results', c = CallSaveAnalysis now id' results' /\
     car' = {| id := id car; make := make car; model := model car;
               registrationNumber := registrationNumber car;
               photos := photos car; analysisResults := Some results';
               reports := Some (orArray (reports car) [] ++
                  [ {| stage := length (orArray (reports car) []) + 1;
                       timestamp := now; results := results';
                       comparison := None; report_photos := photos car |} ]);
               status := analyzed |}) \/
  (exists id' comparison' carReports,
     c = CallUpdateLatestReportComparison id' comparison' /\
     reports car = Some carReports /\ (0 < length carReports)%nat /\
     car' = {| id := id car; make := make car; model := model car;
               registrationNumber := registrationNumber car;
               photos := photos car; analysisResults := analysisResults car;
               reports := Some (alter (withComparison comparison')
                                  (length carReports - 1)%nat carReports);
               status := status car |}).
Proof.
  destruct c as [now carData|id' photos'|now id' results'|id' comparison'|id'|];
    cbn; intros Hin.
  - apply elem_of_cons in Hin as [->|Hin]; [by left|].
    apply list_elem_of_singleton in Hin as ->. right; left. eauto.
  - apply list_elem_of_singleton in Hin as ->.
    destruct (decide (id car = id')); [|by left]. right; right; left. eauto.
  - apply list_elem_of_singleton in Hin as ->.
    destruct (decide (id car = id')); [|by left]. right; right; right; left. eauto.
  - apply list_elem_of_singleton in Hin as ->.
    destruct (reports car) as [carReports|] eqn:Hrep; [|by left].
    destruct (decide _) as [[_ Hlen]|_]; [|by left].
    right; right; right; right. eauto 10.
  - destruct (decide (id car <> id')); [|by apply elem_of_nil in Hin].
    apply list_elem_of_singleton in Hin as ->. by left.
  - by apply elem_of_nil in Hin.
Qed.

Lemma analyzedOnlyIfStaged_step car car' c :
  analyzedOnlyIfStaged car -> car' ∈ step [car] c -> analyzedOnlyIfStaged car'.
Proof.
  intros [Han Hpend] Hin. unfold analyzedOnlyIfStaged, stageCount in *.
  apply step_single in Hin
    as [->|[(?&?&_&->)|[(?&?&_&->)|[(?&?&?&_&->)|(?&?&l&_&Hrep&Hlen&->)]]]];
    cbn; try done.
  - split; [discriminate|lia].
  - split; [|intros _; discriminate]. intros _. rewrite length_app. cbn. lia.
  - rewrite Hrep in Han, Hpend. cbn in Han, Hpend.
    by rewrite length_alter.
Qed.

Lemma last_alter_last {A : Type} (f : A -> A) (l : list A) :
  last (alter f (length l - 1)%nat l) = f <$> last l.
Proof.
  destruct l as [|x l _] using rev_ind; [done|].
  rewrite length_app. cbn. replace (length l + 1 - 1)%nat with (length l + 0)%nat by lia.
  rewrite alter_app_r. cbn. by rewrite !last_snoc.
Qed.

Lemma latestResultsShown_step car car' c :
  latestResultsShown car -> car' ∈ step [car] c -> latestResultsShown car'.
Proof.
  intros Hcar Hin. unfold latestResultsShown in *.
  apply step_single in Hin
    as [->|[(?&?&_&->)|[(?&?&_&->)|[(?&?&?&_&->)|(?&?&l&_&Hrep&Hlen&->)]]]];
    cbn; try done.
  - intros r. rewrite last_snoc. by intros [= <-].
  - intros r. rewrite last_alter_last. rewrite Hrep in Hcar. cbn in Hcar.
    destruct (last l) as [r0|]; [|done]. intros [= <-]. cbn. by apply Hcar.
Qed.

(** C1, as stated, fails: after a first analysis, saving a new photo set
    puts the record back to [completed] although it still has its stage. *)
Lemma analyzed_iff_staged_counterexample :
  reachable (run [CallAddCar 1000 Samples.toyota;
                  CallSaveAnalysis 2000 "1000" "[]";
                  CallUpdateCarPhotos "1000" ["p1"; "p2"; "p4"]])
  /\ exists car,
       car ∈ run [CallAddCar 1000 Samples.toyota;
                  CallSaveAnalysis 2000 "1000" "[]";
                  CallUpdateCarPhotos "1000" ["p1"; "p2"; "p4"]]
       /\ status car = completed /\ stageCount car = 1%nat
       /\ ~ analyzedIffStaged car.
Proof.
  split; [apply reachable_run|].
  eexists. split; [vm_compute; left|].
  split; [reflexivity|]. split; [reflexivity|].
  intros [_ Hback]. cbv in Hback. by specialize (Hback (le_n 1)).
Qed.

(** C1, amended: in every collection reachable from the empty one, a record
    whose status is [analyzed] has at least one stage, and a record with a
    stage is [analyzed] or [completed], never [pending_photos]. *)
Theorem reachable_analyzedOnlyIfStaged cars :
  reachable cars -> Forall analyzedOnlyIfStaged cars.
Proof.
  induction 1 as [|cars c _ IH]; [constructor|].
  apply step_Forall; [| |exact IH].
  - intros now carData _. split; [discriminate|cbn; lia].
  - intros car car' Hcar Hin. by eapply analyzedOnlyIfStaged_step.
Qed.

Lemma reachable_analyzedOnlyIfStaged_witness :
  reachable (run [CallAddCar 1000 Samples.toyota;
                  CallSaveAnalysis 2000 "1000" "[]";
                  CallUpdateCarPhotos "1000" ["p1"; "p2"; "p4"]])
  /\ Forall analyzedOnlyIfStaged
       (run [CallAddCar 1000 Samples.toyota;
             CallSaveAnalysis 2000 "1000" "[]";
             CallUpdateCarPhotos "1000" ["p1"; "p2"; "p4"]]).
Proof.
  split; [apply reachable_run|].
  apply reachable_analyzedOnlyIfStaged. apply reachable_run.
Defined.

(** C10: every operation preserves, for every record of the collection,
    that a record with at least one report has [analysisResults] equal to
    the [results] string of its last report. *)
Theorem latestResultsShown_preserved cars c :
  Forall latestResultsShown cars -> Forall latestResultsShown (step cars c).
Proof.
  intros Hall. apply step_Forall; [| |exact Hall].
  - intros now carData _ r. cbn. discriminate.
  - intros car car' Hcar Hin. by eapply latestResultsShown_step.
Qed.

Lemma latestResultsShown_preserved_witness :
  Forall latestResultsShown (run [CallAddCar 1000 Samples.toyota;
                                  CallSaveAnalysis 2000 "1000" "[]"])
  /\ Forall latestResultsShown
       (step (run [CallAddCar 1000 Samples.toyota;
                   CallSaveAnalysis 2000 "1000" "[]"])
             (CallSaveAnalysis 3000 "1000" "[{}]")).
Proof.
  assert (H0 : Forall latestResultsShown
                 (run [CallAddCar 1000 Samples.toyota;
                       CallSaveAnalysis 2000 "1000" "[]"])).
  { constructor; [|constructor]. intros r. vm_compute. by intros [= <-]. }
  split; [exact H0|]. apply latestResultsShown_preserved. exact H0.
Defined.

(** The same for every collection the operations can build. *)
Lemma reachable_latestResultsShown cars :
  reachable cars -> Forall latestResultsShown cars.
Proof.
  induction 1 as [|cars c _ IH]; [constructor|].
  apply step_Forall; [| |exact IH].
  - intros now carData _ r. cbn. discriminate.
  - intros car car' Hcar Hin. by eapply latestResultsShown_step.
Qed.

(** C2: on every record whose id matches, [saveAnalysis] appends exactly
    one stage, numbered one more than the number of stages the record had,
    carrying the given results and a copy of the record's photos, and sets
    the status to [analyzed]; the stages the record already had stay as
    they were. *)
Theorem saveAnalysis_appends_stage now id' results' cars (i : nat) car :
  cars !! i = Some car ->
  id car = id' ->
  exists car' newReport,
    snd (saveAnalysis now id' results' cars) !! i = Some car'
    /\ reports car' = Some (orArray (reports car) [] ++ [newReport])
    /\ stage newReport = (stageCount car + 1)%nat
    /\ results newReport = results'
    /\ report_photos newReport = photos car
    /\ status car' = analyzed
    /\ stageCount car' = (stageCount car + 1)%nat
    /\ (forall (j : nat) r, orArray (reports car) [] !! j = Some r ->
                            orArray (reports car') [] !! j = Some r).
Proof.
  intros Hi Hid. unfold saveAnalysis, setCars. cbn.
  rewrite list_lookup_fmap, Hi. cbn.
  destruct (decide (id car = id')) as [_|Hne]; [|done].
  eexists _, _. split; [reflexivity|]. cbn.
  repeat split; try reflexivity.
  - unfold stageCount. cbn. rewrite length_app. cbn. lia.
  - intros j r Hj. by apply lookup_app_l_Some.
Qed.

Lemma saveAnalysis_appends_stage_witness :
  exists car' newReport,
    snd (saveAnalysis 2000 "1000" "[]"
           (run [CallAddCar 1000 Samples.toyota;
                 CallUpdateCarPhotos "1000" ["p1"; "p2"; "p3"]])) !! 0%nat = Some car'
    /\ reports car' = Some ([] ++ [newReport])
    /\ stage newReport = 1%nat
    /\ results newReport = "[]"
    /\ report_photos newReport = ["p1"; "p2"; "p3"]
    /\ status car' = analyzed
    /\ stageCount car' = 1%nat
    /\ (forall (j : nat) r, @nil InspectionReport !! j = Some r ->
                            orArray (reports car') [] !! j = Some r).
Proof.
  exact (saveAnalysis_appends_stage 2000 "1000" "[]"
           (run [CallAddCar 1000 Samples.toyota;
                 CallUpdateCarPhotos "1000" ["p1"; "p2"; "p3"]])
           0%nat
           {| id := "1000"; make := "Toyota"; model := "Camry";
              registrationNumber := "ABC123"; photos := ["p1"; "p2"; "p3"];
              analysisResults := None; reports := Some []; status := completed |}
           eq_refl eq_refl).
Defined.

(** Records with another id are left as they are. *)
Lemma saveAnalysis_other now id' results' cars (i : nat) car :
  cars !! i = Some car -> id car <> id' ->
  snd (saveAnalysis now id' results' cars) !! i = Some car.
Proof.
  intros Hi Hid. unfold saveAnalysis, setCars. cbn.
  rewrite list_lookup_fmap, Hi. cbn. by destruct (decide (id car = id')).
Qed.

(** The stored photos are a snapshot: replacing the record's photos later
    does not touch the stages. *)
Lemma updateCarPhotos_keeps_reports id' photos' cars (i : nat) car :
  cars !! i = Some car ->
  exists car', snd (updateCarPhotos id' photos' cars) !! i = Some car'
               /\ reports car' = reports car.
Proof.
  intros Hi. unfold updateCarPhotos, setCars. cbn.
  rewrite list_lookup_fmap, Hi. cbn.
  destruct (decide (id car = id')); by eexists.
Qed.

(** C7, as stated, fails: for an id that matches no record the promise of
    [saveAnalysis] is fulfilled, not rejected, and the collection is the
    one before the call. *)
Lemma saveAnalysis_unknown_id_counterexample :
  getCar (run [CallAddCar 1000 Samples.toyota]) "missing" = None
  /\ saveAnalysis 2000 "missing" "[]" (run [CallAddCar 1000 Samples.toyota])
     = (Fulfilled tt, run [CallAddCar 1000 Samples.toyota])
  /\ ~ exists reason,
         fst (saveAnalysis 2000 "missing" "[]" (run [CallAddCar 1000 Samples.toyota]))
         = Rejected reason.
Proof.
  split; [reflexivity|]. split; [reflexivity|]. intros [reason H]. discriminate H.
Qed.

(** C7, amended: for an id that matches no record of the collection,
    [saveAnalysis] completes normally and leaves the collection as it
    was. *)
Theorem saveAnalysis_unknown_id now id' results' cars :
  (forall car, car ∈ cars -> id car <> id') ->
  saveAnalysis now id' results' cars = (Fulfilled tt, cars).
Proof.
  intros Hno. unfold saveAnalysis, setCars. f_equal.
  rewrite <- (list_fmap_id cars) at 2.
  apply list_fmap_ext. intros i car Hi. cbn.
  destruct (decide (id car = id')) as [Heq|_]; [|done].
  exfalso. eapply Hno; [|exact Heq]. eapply list_elem_of_lookup_2. exact Hi.
Qed.

Lemma saveAnalysis_unknown_id_witness :
  saveAnalysis 2000 "missing" "[]" (run [CallAddCar 1000 Samples.toyota])
  = (Fulfilled tt, run [CallAddCar 1000 Samples.toyota]).
Proof.
  apply saveAnalysis_unknown_id.
  intros car Hin. apply list_elem_of_singleton in Hin as ->. vm_compute. discriminate.
Defined.

(** No operation of the repository ends in a rejected promise. *)
Lemma perform_fulfilled c cars : fst (perform c cars) = Fulfilled tt.
Proof. by destruct c. Qed.

(** C9 at its failing input: two [addCar] calls that read the same clock
    value create two records with the same id. *)
Lemma addCar_same_clock_same_id :
  fst (addCar 1000 Samples.toyota []) = Fulfilled "1000"
  /\ fst (addCar 1000 Samples.honda (snd (addCar 1000 Samples.toyota [])))
     = Fulfilled "1000"
  /\ exists car1 car2,
       run [CallAddCar 1000 Samples.toyota; CallAddCar 1000 Samples.honda]
       = [car1; car2]
       /\ make car1 = "Toyota" /\ make car2 = "Honda" /\ id car1 = id car2.
Proof.
  split; [reflexivity|]. split; [reflexivity|].
  eexists _, _. split; [reflexivity|]. by repeat split.
Qed.

(** Every operation addresses records by id, so the two records can no
    longer be told apart: removing one removes both. *)
Lemma removeCar_same_id_removes_both :
  run [CallAddCar 1000 Samples.toyota; CallAddCar 1000 Samples.honda;
       CallRemoveCar "1000"] = [].
Proof. reflexivity. Qed.

(** What the id policy does give: records created at different clock
    readings have different ids. *)
Lemma toString_inj n m : toString n = toString m -> n = m.
Proof.
  assert (Hnonnil : forall z, Z.to_int z <> Decimal.Pos Decimal.Nil
                              /\ Z.to_int z <> Decimal.Neg Decimal.Nil).
  { intros [|p|p]; cbn; split; try discriminate;
      intros [= H]; by apply DecimalPos.Unsigned.to_uint_nonnil in H. }
  unfold toString. intros H.
  apply (f_equal NilZero.int_of_string) in H.
  destruct (Hnonnil n) as [Hn1 Hn2], (Hnonnil m) as [Hm1 Hm2].
  rewrite !NilZero.isi in H by assumption.
  injection H as H. apply (f_equal Z.of_int) in H.
  by rewrite !DecimalZ.of_to in H.
Qed.

Lemma addCar_distinct_clock_distinct_id now1 now2 data1 data2 cars :
  now1 <> now2 ->
  fst (addCar now1 data1 cars)
  <> fst (addCar now2 data2 (snd (addCar now1 data1 cars))).
Proof.
  intros Hne. cbn. intros [= H]. by apply toString_inj in H.
Qed.

End Repository.

(** ** The stage differ *)

Section StageDiffer.
Import Js GeminiAnalysis ComparisonReport.

Implicit Types (oldResults newResults : list GeminiAnalysisResult) (i : nat).

Lemma iteration_pushes oldResults newResults anglesDiff differencesFound i :
  iteration oldResults newResults (anglesDiff, differencesFound) i =
  (anglesDiff ++ [angleDiffAt oldResults newResults i],
   hasChanges (angleDiffAt oldResults newResults i) || differencesFound).
Proof.
  unfold iteration, angleDiffAt. cbn.
  by destruct (0 <? length (angleChangesAt oldResults newResults i))%nat.
Qed.

Lemma fold_iteration oldResults newResults (slots : list nat) anglesDiff differencesFound :
  fold_left (iteration oldResults newResults) slots (anglesDiff, differencesFound) =
  (anglesDiff ++ (angleDiffAt oldResults newResults <$> slots),
   differencesFound
   || existsb (fun i => hasChanges (angleDiffAt oldResults newResults i)) slots).
Proof.
  revert anglesDiff differencesFound.
  induction slots as [|i slots IH]; intros anglesDiff differencesFound;
    cbn [fold_left existsb].
  - by rewrite fmap_nil, app_nil_r, orb_false_r.
  - rewrite iteration_pushes, IH, <- app_assoc, fmap_cons. f_equal.
    by destruct (hasChanges _), differencesFound.
Qed.

Lemma loop_slots oldResults newResults :
  loop oldResults newResults =
  (angleDiffAt oldResults newResults
     <$> seq 0 (Nat.max (length oldResults) (length newResults)),
   existsb (fun i => hasChanges (angleDiffAt oldResults newResults i))
     (seq 0 (Nat.max (length oldResults) (length newResults)))).
Proof. unfold loop. by rewrite fold_iteration. Qed.

Lemma hasChanges_angleDiffAt oldResults newResults i :
  hasChanges (angleDiffAt oldResults newResults i) = true
  <-> angleChangesAt oldResults newResults i <> [].
Proof.
  cbn [hasChanges angleDiffAt]. by destruct (angleChangesAt _ _ _).
Qed.

(** Past the end of both arrays there is nothing to report. *)
Lemma angleChangesAt_beyond oldResults newResults i :
  (Nat.max (length oldResults) (length newResults) <= i)%nat ->
  angleChangesAt oldResults newResults i = [].
Proof.
  intros Hi. unfold angleChangesAt.
  rewrite (lookup_ge_None_2 oldResults i), (lookup_ge_None_2 newResults i) by lia.
  done.
Qed.

Lemma differencesFound_iff oldResults newResults :
  snd (loop oldResults newResults) = true
  <-> exists i, angleChangesAt oldResults newResults i <> [].
Proof.
  rewrite loop_slots. cbn. rewrite existsb_exists. split.
  - intros (i & _ & Hi). exists i. by apply hasChanges_angleDiffAt.
  - intros (i & Hi). exists i. split; [|by apply hasChanges_angleDiffAt].
    apply in_seq. split; [lia|]. cbn.
    destruct (decide (i < Nat.max (length oldResults) (length newResults))%nat);
      [done|].
    exfalso. apply Hi, angleChangesAt_beyond. lia.
Qed.

Lemma elem_of_angles oldResults newResults a :
  a ∈ angles (compareStructuredReports oldResults newResults)
  <-> exists i, a = angleDiffAt oldResults newResults i
                /\ angleChangesAt oldResults newResults i <> [].
Proof.
  unfold compareStructuredReports. rewrite loop_slots. cbn.
  rewrite list_elem_of_filter, list_elem_of_fmap. split.
  - intros (Hch & i & -> & _). exists i. split; [done|].
    apply hasChanges_angleDiffAt. by apply Is_true_true.
  - intros (i & -> & Hi). split.
    + apply Is_true_true. by apply hasChanges_angleDiffAt.
    + exists i. split; [done|]. apply elem_of_seq. split; [lia|]. cbn.
      destruct (decide (i < Nat.max (length oldResults) (length newResults))%nat);
        [done|].
      exfalso. apply Hi, angleChangesAt_beyond. lia.
Qed.

Lemma angleChangesAt_both oldResults newResults i oldItem newItem :
  oldResults !! i = Some oldItem -> newResults !! i = Some newItem ->
  angleChangesAt oldResults newResults i =
  (if decide (severity oldItem <> severity newItem)
   then [severityChange oldItem newItem] else [])
  ++ (if decide (damageType oldItem <> damageType newItem)
      then [damageTypeChange oldItem newItem] else [])
  ++ (if decide (description oldItem <> description newItem)
      then [descriptionChange oldItem newItem] else [])
  ++ (if decide (hasDamage oldItem <> hasDamage newItem)
      then [hasDamageChange oldItem newItem] else []).
Proof. intros Hold Hnew. unfold angleChangesAt. by rewrite Hold, Hnew. Qed.

Lemma elem_of_angleChangesAt_both oldResults newResults i oldItem newItem ch :
  oldResults !! i = Some oldItem -> newResults !! i = Some newItem ->
  ch ∈ angleChangesAt oldResults newResults i <->
  (severity oldItem <> severity newItem /\ ch = severityChange oldItem newItem)
  \/ (damageType oldItem <> damageType newItem /\ ch = damageTypeChange oldItem newItem)
  \/ (description oldItem <> description newItem
      /\ ch = descriptionChange oldItem newItem)
  \/ (hasDamage oldItem <> hasDamage newItem /\ ch = hasDamageChange oldItem newItem).
Proof.
  intros Hold Hnew. rewrite (angleChangesAt_both _ _ _ _ _ Hold Hnew).
  rewrite !elem_of_app.
  repeat case_decide; rewrite ?list_elem_of_singleton, ?elem_of_nil; tauto.
Qed.

Lemma NoDup_angleChangesAt_both oldResults newResults i oldItem newItem :
  oldResults !! i = Some oldItem -> newResults !! i = Some newItem ->
  NoDup (angleChangesAt oldResults newResults i).
Proof.
  intros Hold Hnew. rewrite (angleChangesAt_both _ _ _ _ _ Hold Hnew).
  repeat case_decide; cbn;
    repeat (apply NoDup_cons; split;
            [rewrite ?elem_of_cons, ?elem_of_nil;
             unfold severityChange, damageTypeChange, descriptionChange,
               hasDamageChange; intuition discriminate|]);
    apply NoDup_nil_2.
Qed.

(** C3: for a slot present in both arrays, the differ's output reports for
    that slot one [changed] entry for each of the fields severity, damage
    type, description and has-damage whose old and new values differ, and
    nothing else; the has-damage entry carries the values as ["Yes"] or
    ["No"]. *)
Theorem compareStructuredReports_field_changes
    oldResults newResults i oldItem newItem :
  oldResults !! i = Some oldItem ->
  newResults !! i = Some newItem ->
  (forall ch,
     (exists a, a ∈ angles (compareStructuredReports oldResults newResults)
                /\ index a = i /\ ch ∈ changes a)
     <->
     (severity oldItem <> severity newItem
      /\ ch = {| field := "Severity";
                 oldValue := str (severityName (severity oldItem));
                 newValue := str (severityName (severity newItem));
                 type := changed |})
     \/ (damageType oldItem <> damageType newItem
         /\ ch = {| field := "Damage Type";
                    oldValue := str (damageType oldItem);
                    newValue := str (damageType newItem);
                    type := changed |})
     \/ (description oldItem <> description newItem
         /\ ch = {| field := "Description";
                    oldValue := str (description oldItem);
                    newValue := str (description newItem);
                    type := changed |})
     \/ (hasDamage oldItem <> hasDamage newItem
         /\ ch = {| field := "Has Damage";
                    oldValue := str (if hasDamage oldItem then "Yes" else "No");
                    newValue := str (if hasDamage newItem then "Yes" else "No");
                    type := changed |}))
  /\ (forall a, a ∈ angles (compareStructuredReports oldResults newResults) ->
                index a = i -> NoDup (changes a))
  /\ (forall a a', a ∈ angles (compareStructuredReports oldResults newResults) ->
                   a' ∈ angles (compareStructuredReports oldResults newResults) ->
                   index a = i -> index a' = i -> a = a').
Proof.
  intros Hold Hnew. split; [|split].
  - intros ch.
    rewrite <- (elem_of_angleChangesAt_both _ _ _ _ _ ch Hold Hnew). split.
    + intros (a & Ha & Hidx & Hch).
      apply elem_of_angles in Ha as (j & -> & _). cbn in Hidx, Hch. by subst j.
    + intros Hch. exists (angleDiffAt oldResults newResults i).
      split; [|done]. apply elem_of_angles. exists i. split; [done|].
      intros Hnil. rewrite Hnil in Hch. by apply elem_of_nil in Hch.
  - intros a Ha Hidx. apply elem_of_angles in Ha as (j & -> & _).
    cbn in Hidx. subst j. cbn. by eapply NoDup_angleChangesAt_both.
  - intros a a' Ha Ha' Hidx Hidx'.
    apply elem_of_angles in Ha as (j & -> & _).
    apply elem_of_angles in Ha' as (j' & -> & _).
    cbn in Hidx, Hidx'. by subst.
Qed.

Lemma compareStructuredReports_field_changes_witness :
  [Samples.cleanResult; Samples.cleanResult; Samples.cleanResult] !! 2%nat
    = Some Samples.cleanResult
  /\ [Samples.cleanResult; Samples.cleanResult; Samples.dentedResult] !! 2%nat
     = Some Samples.dentedResult
  /\ exists a,
       a ∈ angles (compareStructuredReports
                     [Samples.cleanResult; Samples.cleanResult; Samples.cleanResult]
                     [Samples.cleanResult; Samples.cleanResult; Samples.dentedResult])
       /\ index a = 2%nat
       /\ {| field := "Severity"; oldValue := str "none"; newValue := str "moderate";
             type := changed |} ∈ changes a.
Proof.
  split; [reflexivity|]. split; [reflexivity|].
  apply (proj1 (compareStructuredReports_field_changes
                  [Samples.cleanResult; Samples.cleanResult; Samples.cleanResult]
                  [Samples.cleanResult; Samples.cleanResult; Samples.dentedResult]
                  2%nat Samples.cleanResult Samples.dentedResult eq_refl eq_refl)).
  left. split; [discriminate|reflexivity].
Defined.

Lemma compareStructuredReports_unfold oldResults newResults :
  compareStructuredReports oldResults newResults =
  {| summary := if snd (loop oldResults newResults)
                then "Differences detected between reports."
                else "No significant structural differences.";
     angles := filter (fun a => hasChanges a) (fst (loop oldResults newResults));
     overallConfirm := snd (loop oldResults newResults) |}.
Proof. unfold compareStructuredReports. by destruct (loop oldResults newResults). Qed.

(** C4: the returned [angles] are exactly the per-slot entries with
    [hasChanges] true, in slot order, so a slot is listed if and only if a
    change was found for it; [summary] is one of the two fixed strings
    according to whether some slot had a change; and [overallConfirm] is
    true if and only if at least one change was found. *)
Theorem compareStructuredReports_output oldResults newResults :
  angles (compareStructuredReports oldResults newResults)
  = filter (fun a => hasChanges a)
      (angleDiffAt oldResults newResults
         <$> seq 0 (Nat.max (length oldResults) (length newResults)))
  /\ Forall (fun a => hasChanges a = true /\ changes a <> [])
       (angles (compareStructuredReports oldResults newResults))
  /\ (forall i,
        angleDiffAt oldResults newResults i
          ∈ angles (compareStructuredReports oldResults newResults)
        <-> angleChangesAt oldResults newResults i <> [])
  /\ summary (compareStructuredReports oldResults newResults)
     = (if overallConfirm (compareStructuredReports oldResults newResults)
        then "Differences detected between reports."
        else "No significant structural differences.")
  /\ (overallConfirm (compareStructuredReports oldResults newResults) = true
      <-> exists i, angleChangesAt oldResults newResults i <> [])
  /\ (overallConfirm (compareStructuredReports oldResults newResults) = true
      <-> angles (compareStructuredReports oldResults newResults) <> []).
Proof.
  assert (Hconfirm :
            overallConfirm (compareStructuredReports oldResults newResults) = true
            <-> exists i, angleChangesAt oldResults newResults i <> []).
  { rewrite compareStructuredReports_unfold. cbn. apply differencesFound_iff. }
  split; [|split; [|split; [|split; [|split]]]].
  - rewrite compareStructuredReports_unfold, loop_slots. reflexivity.
  - apply Forall_forall. intros a Ha.
    apply elem_of_angles in Ha as (i & -> & Hi).
    split; [by apply hasChanges_angleDiffAt|exact Hi].
  - intros i. split.
    + intros Hin. apply elem_of_angles in Hin as (j & Heq & Hj).
      apply (f_equal index) in Heq. cbn in Heq. by subst j.
    + intros Hi. apply elem_of_angles. by exists i.
  - by rewrite compareStructuredReports_unfold.
  - exact Hconfirm.
  - split.
    + intros Htrue Hnil. apply Hconfirm in Htrue as (i & Hi).
      assert (Hin : angleDiffAt oldResults newResults i
                      ∈ angles (compareStructuredReports oldResults newResults)).
      { apply elem_of_angles. by exists i. }
      rewrite Hnil in Hin. by apply elem_of_nil in Hin.
    + intros Hne. apply Hconfirm.
      destruct (angles (compareStructuredReports oldResults newResults))
        as [|a rest] eqn:Hangles; [done|].
      assert (Hin : a ∈ angles (compareStructuredReports oldResults newResults)).
      { rewrite Hangles. by left. }
      apply elem_of_angles in Hin as (i & _ & Hi). by exists i.
Qed.

(** Three clean slots, then the same with the severity of the third slot
    changed; and an array that grew by one slot. *)
Example compareStructuredReports_severity_only :
  compareStructuredReports
    [Samples.cleanResult; Samples.cleanResult; Samples.cleanResult]
    [Samples.cleanResult; Samples.cleanResult;
     {| hasDamage := false; damageType := "None"; severity := moderate;
        description := "The paint looks pristine here, no issues found.";
        recommendations := []; imageComplete := true; completenessNote := None |}]
  = {| summary := "Differences detected between reports.";
       angles := [ {| label := "Left Side"; index := 2; hasChanges := true;
                      changes := [ {| field := "Severity";
                                      oldValue := str "none";
                                      newValue := str "moderate";
                                      type := changed |} ] |} ];
       overallConfirm := true |}.
Proof. reflexivity. Qed.

Example compareStructuredReports_added_slot :
  compareStructuredReports [Samples.cleanResult]
                           [Samples.cleanResult; Samples.cleanResult]
  = {| summary := "Differences detected between reports.";
       angles := [ {| label := "Back"; index := 1; hasChanges := true;
                      changes := [ {| field := "Record"; oldValue := null;
                                      newValue := str "Present";
                                      type := added |} ] |} ];
       overallConfirm := true |}.
Proof. reflexivity. Qed.

Lemma angleChangesAt_same x i : angleChangesAt x x i = [].
Proof.
  unfold angleChangesAt. destruct (x !! i) as [item|]; [|done].
  by repeat case_decide.
Qed.

(** C5: comparing an array of results with itself reports no angle and
    does not confirm any difference. *)
Theorem compareStructuredReports_same (x : list GeminiAnalysisResult) :
  angles (compareStructuredReports x x) = []
  /\ overallConfirm (compareStructuredReports x x) = false.
Proof.
  split.
  - apply elem_of_nil_inv. intros a Ha.
    apply elem_of_angles in Ha as (i & _ & Hi). apply Hi, angleChangesAt_same.
  - apply not_true_is_false. rewrite compareStructuredReports_unfold. cbn.
    rewrite differencesFound_iff. intros (i & Hi). apply Hi, angleChangesAt_same.
Qed.

End StageDiffer.

(** ** Photo scoring *)

Section PhotoScoring.
Import Js Effects CarDetection.

Lemma returns_ret {A : Type} (a : A) (P : A -> Prop) : P a -> returns (mret a) P.
Proof. intros Ha w. by exists a, w. Qed.

Lemma returns_bind {A B : Type} (m : Eff A) (k : A -> Eff B)
    (Q : A -> Prop) (P : B -> Prop) :
  returns m Q -> (forall a, Q a -> returns (k a) P) -> returns (m ≫= k) P.
Proof.
  intros Hm Hk w. destruct (Hm w) as (a & w' & Hrun & Ha).
  destruct (Hk a Ha w') as (b & w'' & Hrun' & Hb).
  exists b, w''. split; [|done].
  unfold mbind, Eff_bind. by rewrite Hrun.
Qed.

Lemma returns_tryCatch {A : Type} (body : Eff A) (handler : string -> Eff A)
    (P : A -> Prop) :
  returns body P -> returns (tryCatch body handler) P.
Proof.
  intros Hbody w. destruct (Hbody w) as (a & w' & Hrun & Ha).
  exists a, w'. split; [|done]. unfold tryCatch. by rewrite Hrun.
Qed.

Lemma returns_Math_random (P : float -> Prop) :
  (forall r, P r) -> returns Math_random P.
Proof. intros HP w. eexists _, _. split; [reflexivity|apply HP]. Qed.

(** The analyses of [imageAnalysis.ts] never throw. *)
Lemma getImageMetadata_returns imageUri :
  returns (ImageAnalysis.getImageMetadata imageUri) (fun _ => True).
Proof. by apply returns_ret. Qed.

Lemma analyzeImageQuality_returns imageUri :
  returns (ImageAnalysis.analyzeImageQuality imageUri) (fun _ => True).
Proof.
  apply returns_tryCatch.
  eapply returns_bind; [apply getImageMetadata_returns|]. intros metadata _.
  cbv zeta.
  repeat match goal with
         | |- context [if ?b then _ else _] => destruct b
         end; by apply returns_ret.
Qed.

Lemma analyzeBrightness_returns imageUri :
  returns (ImageAnalysis.analyzeBrightness imageUri) (fun _ => True).
Proof.
  apply returns_tryCatch.
  eapply returns_bind; [apply getImageMetadata_returns|]. intros metadata _.
  apply (returns_bind _ _ (fun _ => True)); [by apply returns_Math_random|].
  intros random _.
  by apply returns_ret.
Qed.

Lemma analyzeBlur_returns imageUri :
  returns (ImageAnalysis.analyzeBlur imageUri) (fun _ => True).
Proof.
  apply returns_tryCatch.
  apply (returns_bind _ _ (fun _ => True)); [by apply returns_Math_random|].
  intros random _.
  by apply returns_ret.
Qed.

Lemma detectAngle_returns imageUri :
  returns (detectAngle imageUri) (fun _ => True).
Proof.
  apply returns_tryCatch.
  eapply returns_bind; [apply analyzeImageQuality_returns|]. intros analysis _.
  cbv zeta.
  repeat match goal with
         | |- returns (if ?b then _ else _) _ => destruct b
         | |- returns (_ ≫= _) _ =>
             apply (returns_bind _ _ (fun _ => True));
               [by apply returns_Math_random|]; intros random _
         end; by apply returns_ret.
Qed.

Lemma checkFraming_returns imageUri :
  returns (checkFraming imageUri) (fun check => 0 <= FramingCheck.score check <= 25).
Proof.
  apply returns_tryCatch.
  eapply returns_bind; [apply analyzeImageQuality_returns|]. intros analysis _.
  destruct (ImageAnalysis.resolution _);
    repeat match goal with
           | |- returns (if ?b then _ else _) _ => destruct b
           end; apply returns_ret; cbn; lia.
Qed.

Lemma checkLighting_returns imageUri :
  returns (checkLighting imageUri) (fun check => 0 <= LightingCheck.score check <= 25).
Proof.
  apply returns_tryCatch.
  eapply returns_bind; [apply analyzeBrightness_returns|]. intros brightAnalysis _.
  cbv zeta.
  repeat match goal with
         | |- context [if ?b then _ else _] => destruct b
         end; apply returns_ret; cbn; lia.
Qed.

Lemma checkQuality_returns imageUri :
  returns (checkQuality imageUri) (fun check => 0 <= QualityCheck.score check <= 25).
Proof.
  apply returns_tryCatch.
  eapply returns_bind; [apply analyzeBlur_returns|]. intros blurAnalysis _.
  eapply returns_bind; [apply analyzeImageQuality_returns|]. intros qualityAnalysis _.
  cbv zeta.
  repeat match goal with
         | |- context [if ?b then _ else _] => destruct b
         end; apply returns_ret; cbn; lia.
Qed.

(** C8: whatever the image, the expected angle and the random draws,
    [detectCar] returns a result whose [totalScore] lies in [0,100] and is
    the sum of the angle score (25 when the angle gate is passed, 0 when it
    is not, in which case no other check is scored) and of the framing,
    lighting and quality scores, each between 0 and 25; and [isAccepted]
    is true exactly when [totalScore] is at least 65. *)
Theorem detectCar_score_contract imageUri expectedAngle w :
  exists r w',
    detectCar imageUri expectedAngle w = (Normal r, w')
    /\ 0 <= totalScore r <= 100
    /\ totalScore r
       = angleScore r
         + from_option FramingCheck.score 0 (framing r)
         + from_option LightingCheck.score 0 (lighting r)
         + from_option QualityCheck.score 0 (quality r)
    /\ (angleScore r = 25
        \/ (angleScore r = 0
            /\ framing r = None /\ lighting r = None /\ quality r = None))
    /\ 0 <= from_option FramingCheck.score 0 (framing r) <= 25
    /\ 0 <= from_option LightingCheck.score 0 (lighting r) <= 25
    /\ 0 <= from_option QualityCheck.score 0 (quality r) <= 25
    /\ (isAccepted r = true <-> 65 <= totalScore r).
Proof.
  revert w. change (returns (detectCar imageUri expectedAngle) (fun r =>
    0 <= totalScore r <= 100
    /\ totalScore r
       = angleScore r
         + from_option FramingCheck.score 0 (framing r)
         + from_option LightingCheck.score 0 (lighting r)
         + from_option QualityCheck.score 0 (quality r)
    /\ (angleScore r = 25
        \/ (angleScore r = 0
            /\ framing r = None /\ lighting r = None /\ quality r = None))
    /\ 0 <= from_option FramingCheck.score 0 (framing r) <= 25
    /\ 0 <= from_option LightingCheck.score 0 (lighting r) <= 25
    /\ 0 <= from_option QualityCheck.score 0 (quality r) <= 25
    /\ (isAccepted r = true <-> 65 <= totalScore r))).
  apply returns_tryCatch.
  eapply returns_bind; [apply analyzeImageQuality_returns|].
  intros qualityAnalysis _.
  destruct (negb _ || _).
  { apply returns_ret. cbn. intuition (try lia; try discriminate). }
  eapply returns_bind; [apply detectAngle_returns|]. intros angle _.
  destruct (wrongAngle expectedAngle angle).
  { apply returns_ret. cbn. intuition (try lia; try discriminate). }
  cbv zeta.
  eapply returns_bind; [apply checkFraming_returns|]. intros framing Hframing.
  eapply returns_bind; [apply checkLighting_returns|]. intros lighting Hlighting.
  eapply returns_bind; [apply checkQuality_returns|]. intros quality Hquality.
  apply returns_ret. cbn. unfold QUALITY_THRESHOLD. rewrite Z.leb_le.
  intuition lia.
Qed.


(** A run in which the angle gate is passed, the light is low and the
    photo is blurry: 25 + 24 + 12 + 5. *)
Example detectCar_low_light_blurry :
  fst (detectCar "file:///front.jpg" (Some Front)
         {| randoms := fun n => match n with
                                | 0%nat => 0.1%float
                                | 1%nat => 0.1%float
                                | _ => 0.9%float
                                end;
            drawn := 0 |})
  = Normal {| carDetected := true;
              angle := Some Front;
              angleScore := 25;
              framing := Some (FramingCheck.mk true "Framing perfect." 24);
              lighting :=
                Some (LightingCheck.mk false
                        "Lighting too low. Take photo in daylight or well-lit area."
                        12 (0.3 + 0.1 * 0.4)%float false true);
              quality :=
                Some (QualityCheck.mk false
                        "Image is blurry. Hold camera steady and retake photo."
                        5 0.9%float);
              totalScore := 66;
              isAccepted := true;
              hint := "Perfect! Quality Score: 66/100" |}.
Proof. vm_compute. reflexivity. Qed.

End PhotoScoring.

(** ** Damage statistics *)

Section DamageStatistics.
Import GeminiAnalysis ReportScreen.

(** C6 at its failing input: a photo that failed verification
    ([imageComplete] false) and for which the model reported damage is
    counted by [generateDamageReport] as a damaged photo and enters the
    average severity and the summary, while the report screen lists the
    same photo as rejected, neither damaged nor clean. *)
Lemma generateDamageReport_counts_rejected_photo :
  imageComplete Samples.rejectedDamagedResult = false
  /\ generateDamageReport [Samples.cleanResult; Samples.rejectedDamagedResult]
     = {| totalImages := 2;
          damageCount := 1;
          averageSeverity := "severe";
          summary := "Damage detected in 1/2 photos. Average severity: severe" |}
  /\ generateDamageReport [Samples.cleanResult]
     = {| totalImages := 1;
          damageCount := 0;
          averageSeverity := "none";
          summary := "No damage detected in any photos" |}
  /\ damagedPhotos [Samples.cleanResult; Samples.rejectedDamagedResult] = []
  /\ cleanPhotos [Samples.cleanResult; Samples.rejectedDamagedResult]
     = [ {| result := Samples.cleanResult; index := 0 |} ]
  /\ rejectedPhotos [Samples.cleanResult; Samples.rejectedDamagedResult]
     = [ {| result := Samples.rejectedDamagedResult; index := 1 |} ].
Proof. repeat split; reflexivity. Qed.

(** [generateDamageReport] counts every result with [hasDamage], whatever
    its [imageComplete]. *)
Lemma damageCount_counts_hasDamage results r :
  hasDamage r = true ->
  damageCount (generateDamageReport (results ++ [r]))
  = S (damageCount (generateDamageReport results)).
Proof.
  intros Hdamage. cbn. rewrite filter_app, length_app.
  rewrite filter_cons_True by by rewrite Hdamage. cbn. lia.
Qed.

(** The report screen does make the exclusion: a photo listed as damaged
    or as clean has [imageComplete] true. *)
Lemma reportScreen_excludes_rejected results r :
  r ∈ damagedPhotos results \/ r ∈ cleanPhotos results ->
  imageComplete (result r) = true /\ r ∉ rejectedPhotos results.
Proof.
  unfold damagedPhotos, cleanPhotos, rejectedPhotos.
  rewrite !list_elem_of_filter.
  intros [[Hr _]|[Hr _]]; apply andb_True in Hr as [Hcomplete _];
    apply Is_true_true in Hcomplete; (split; [done|]);
    intros [Hneg _]; by rewrite Hcomplete in Hneg.
Qed.

End DamageStatistics.

(** ** More on the car repository *)

Section RepositoryLookups.
Import Js CarsContext CarsInvariants.

Implicit Types (cars : list Car) (car : Car) (c : Call).

Lemma getCar_cons car cars id'' :
  getCar (car :: cars) id'' =
  if decide (id car = id'') then Some car else getCar cars id''.
Proof.
  unfold getCar. cbn. destruct (decide (id car = id'')); [done|].
  by destruct (list_find _ cars) as [[i x]|].
Qed.

Lemma getCar_nil id'' : getCar [] id'' = None.
Proof. done. Qed.

Lemma getCar_None cars id'' :
  getCar cars id'' = None <-> forall car, car ∈ cars -> id car <> id''.
Proof.
  unfold getCar. rewrite fmap_None, list_find_None, Forall_forall. done.
Qed.

Lemma getCar_Some cars id'' car :
  getCar cars id'' = Some car -> car ∈ cars /\ id car = id''.
Proof.
  unfold getCar. intros ([i x] & Hfind & ->)%fmap_Some.
  apply list_find_Some in Hfind as (Hi & Hid & _). cbn.
  split; [by eapply list_elem_of_lookup_2|done].
Qed.

(** X1: after [removeCar(id)] no record has that id, and the records with
    another id are those there were, in their order; no operation fails. *)
Theorem removeCar_removes_all id' cars :
  getCar (snd (removeCar id' cars)) id' = None
  /\ snd (removeCar id' cars) = filter (fun car => id car <> id') cars
  /\ (forall id'', id'' <> id' ->
        getCar (snd (removeCar id' cars)) id'' = getCar cars id'').
Proof.
  split; [|split; [reflexivity|]].
  - unfold getCar, removeCar, setCars. cbn.
    apply fmap_None, list_find_None, Forall_forall.
    intros car [Hne _]%list_elem_of_filter. exact Hne.
  - intros id'' Hne. unfold removeCar, setCars. cbn [snd].
    induction cars as [|car cars IH]; [done|].
    rewrite filter_cons, (getCar_cons car cars).
    destruct (decide (id car <> id')) as [Hkeep|Hdrop].
    + rewrite getCar_cons. by destruct (decide (id car = id'')).
    + apply dec_stable in Hdrop.
      destruct (decide (id car = id'')) as [Heq|_]; [congruence|done].
Qed.

(** X2: [removeCar] on an id that no record has leaves the collection as it
    is. *)
Theorem removeCar_unknown_id id' cars :
  getCar cars id' = None ->
  removeCar id' cars = (Fulfilled tt, cars).
Proof.
  intros Hnone. unfold removeCar, setCars. f_equal.
  induction cars as [|car cars IH]; [done|].
  rewrite getCar_cons in Hnone.
  destruct (decide (id car = id')) as [|Hne]; [done|].
  rewrite filter_cons_True by done. f_equal. by apply IH.
Qed.

Lemma removeCar_unknown_id_witness :
  removeCar "missing" (run [CallAddCar 1000 Samples.toyota])
  = (Fulfilled tt, run [CallAddCar 1000 Samples.toyota]).
Proof. apply removeCar_unknown_id. reflexivity. Defined.

(** X3: [addCar] returns the id of the record it appends; looking that id up
    finds the new record unless an older record already has the id, in
    which case the older one is found. Other lookups are not affected. *)
Theorem getCar_addCar now carData cars id'' :
  fst (addCar now carData cars) = Fulfilled (toString now)
  /\ snd (addCar now carData cars) = cars ++ [freshCar now carData]
  /\ getCar (snd (addCar now carData cars)) id'' =
     match getCar cars id'' with
     | Some car => Some car
     | None => if decide (toString now = id'') then Some (freshCar now carData) else None
     end.
Proof.
  split; [reflexivity|]. split; [reflexivity|].
  change (snd (addCar now carData cars)) with (cars ++ [freshCar now carData]).
  induction cars as [|car cars IH].
  - cbn [app]. rewrite getCar_cons, getCar_nil. done.
  - cbn [app]. rewrite !getCar_cons. by destruct (decide (id car = id'')).
Qed.

(** X4: [updateCarPhotos(id, photos)] seen through [getCar]: the record found
    under [id] is the one found before with its photos replaced and its
    status [completed]; an unknown [id] stays unknown; lookups of other ids
    are not affected. *)
Theorem getCar_updateCarPhotos id' photos' cars id'' :
  getCar (snd (updateCarPhotos id' photos' cars)) id'' =
  if decide (id'' = id') then withPhotos photos' <$> getCar cars id''
  else getCar cars id''.
Proof.
  unfold updateCarPhotos, setCars. cbn [snd].
  induction cars as [|car cars IH].
  - by destruct (decide (id'' = id')).
  - rewrite fmap_cons, !getCar_cons, IH.
    destruct (decide (id car = id')) as [Heq|Hne]; cbn [id];
      destruct (decide (id car = id'')) as [Heq'|Hne'];
      destruct (decide (id'' = id')); try done; congruence.
Qed.

(** X5: [saveAnalysis(id, results)] seen through [getCar]: the record found
    under [id] is the one found before with the new stage appended, the
    results stored and the status [analyzed]; lookups of other ids are not
    affected. *)
Theorem getCar_saveAnalysis now id' results' cars id'' :
  getCar (snd (saveAnalysis now id' results' cars)) id'' =
  if decide (id'' = id') then withAnalysis now results' <$> getCar cars id''
  else getCar cars id''.
Proof.
  unfold saveAnalysis, setCars. cbn [snd].
  induction cars as [|car cars IH].
  - by destruct (decide (id'' = id')).
  - rewrite fmap_cons, !getCar_cons, IH.
    destruct (decide (id car = id')) as [Heq|Hne]; cbn [id];
      destruct (decide (id car = id'')) as [Heq'|Hne'];
      destruct (decide (id'' = id')); try done; congruence.
Qed.

End RepositoryLookups.

Section RepositoryInvariants.
Import Js CarsContext CarsInvariants.

Implicit Types (cars : list Car) (car : Car) (c : Call).

Lemma lookup_alter_last {A : Type} (f : A -> A) (l : list A) (j : nat) :
  alter f (length l - 1)%nat l !! j =
  (if decide (j = (length l - 1)%nat) then f else fun x => x) <$> l !! j.
Proof.
  destruct (decide (j = (length l - 1)%nat)) as [->|Hne].
  - by rewrite list_lookup_alter_eq.
  - rewrite list_lookup_alter_ne by done. by destruct (l !! j).
Qed.

Lemma stagesNumbered_step car car' c :
  stagesNumbered car -> car' ∈ step [car] c -> stagesNumbered car'.
Proof.
  intros Hcar Hin. unfold stagesNumbered in *.
  apply step_single in Hin
    as [->|[(?&?&_&->)|[(?&?&_&->)|[(?&?&?&_&->)|(?&?&l&_&Hrep&Hlen&->)]]]];
    cbn; try done.
  - intros j r [Hj|[Hj Hr]]%lookup_app_Some; [by apply Hcar|].
    apply list_lookup_singleton_Some in Hr as [Hj0 <-]. cbn. lia.
  - intros j r. rewrite lookup_alter_last. rewrite Hrep in Hcar. cbn in Hcar.
    destruct (l !! j) as [r0|] eqn:Hj; [|done]. intros [= <-].
    specialize (Hcar j r0 Hj). by destruct (decide _).
Qed.

(** X6: in every collection the operations can build, the stages of each
    record are numbered 1, 2, 3, ... without gap or repetition, in the
    order in which they were appended. *)
Theorem reachable_stagesNumbered cars :
  reachable cars -> Forall stagesNumbered cars.
Proof.
  induction 1 as [|cars c _ IH]; [constructor|].
  apply step_Forall; [| |exact IH].
  - intros now carData _ j r. cbn. by rewrite lookup_nil.
  - intros car car' Hcar Hin. by eapply stagesNumbered_step.
Qed.

Lemma reachable_stagesNumbered_witness :
  reachable (run [CallAddCar 1000 Samples.toyota;
                  CallSaveAnalysis 2000 "1000" "[]";
                  CallUpdateCarPhotos "1000" ["p1"; "p2"; "p4"];
                  CallSaveAnalysis 3000 "1000" "[{}]"])
  /\ Forall stagesNumbered
       (run [CallAddCar 1000 Samples.toyota;
             CallSaveAnalysis 2000 "1000" "[]";
             CallUpdateCarPhotos "1000" ["p1"; "p2"; "p4"];
             CallSaveAnalysis 3000 "1000" "[{}]"]).
Proof.
  split; [apply reachable_run|].
  apply reachable_stagesNumbered. apply reachable_run.
Defined.

Lemma startsEmpty_step car car' c :
  startsEmpty car -> car' ∈ step [car] c -> startsEmpty car'.
Proof.
  intros [Hsome Hpending] Hin. unfold startsEmpty in *.
  apply step_single in Hin
    as [->|[(?&?&_&->)|[(?&?&_&->)|[(?&?&?&_&->)|(?&?&l&_&Hrep&Hlen&->)]]]];
    cbn; try done.
  split; [done|]. intros Hstatus. destruct (Hpending Hstatus) as [_ Hnil].
  rewrite Hrep in Hnil. injection Hnil as ->. cbn in Hlen. lia.
Qed.

(** X7: in every collection the operations can build, each record has its
    [reports] array, and a record that is still [pending_photos] has no
    photos and no stage. *)
Theorem reachable_startsEmpty cars :
  reachable cars -> Forall startsEmpty cars.
Proof.
  induction 1 as [|cars c _ IH]; [constructor|].
  apply step_Forall; [| |exact IH].
  - intros now carData _. by split.
  - intros car car' Hcar Hin. by eapply startsEmpty_step.
Qed.

Lemma reachable_startsEmpty_witness :
  reachable (run [CallAddCar 1000 Samples.toyota; CallAddCar 1500 Samples.honda;
                  CallUpdateCarPhotos "1000" ["p1"]])
  /\ Forall startsEmpty
       (run [CallAddCar 1000 Samples.toyota; CallAddCar 1500 Samples.honda;
             CallUpdateCarPhotos "1000" ["p1"]]).
Proof.
  split; [apply reachable_run|].
  apply reachable_startsEmpty. apply reachable_run.
Defined.

Lemma keepsHistory_refl car : keepsHistory car car.
Proof. repeat split. intros j r Hj. exists r. by repeat split. Qed.

(** X8: no call other than a removal drops or moves a record, changes the
    identity of a vehicle or touches what a stage recorded: the record at
    each position is the same vehicle, and every stage it had is still at
    its place with its number, time, results and photos. *)
Theorem step_keepsHistory cars c (i : nat) car :
  removes c = false ->
  cars !! i = Some car ->
  exists car', step cars c !! i = Some car' /\ keepsHistory car car'.
Proof.
  intros Hkeep Hi.
  destruct c as [now carData|id' photos'|now id' results'|id' comparison'|id'|];
    try discriminate Hkeep; cbn.
  - exists car. split; [by apply lookup_app_l_Some|apply keepsHistory_refl].
  - rewrite list_lookup_fmap, Hi. cbn. eexists. split; [reflexivity|].
    destruct (decide (id car = id')); [|apply keepsHistory_refl].
    repeat split. intros j r Hj. exists r. by repeat split.
  - rewrite list_lookup_fmap, Hi. cbn. eexists. split; [reflexivity|].
    destruct (decide (id car = id')); [|apply keepsHistory_refl].
    repeat split. cbn. intros j r Hj. exists r.
    split; [by apply lookup_app_l_Some|by repeat split].
  - rewrite list_lookup_fmap, Hi. cbn. eexists. split; [reflexivity|].
    destruct (reports car) as [l|] eqn:Hrep; [|apply keepsHistory_refl].
    destruct (decide _); [|apply keepsHistory_refl].
    repeat split. cbn. rewrite Hrep. cbn. intros j r Hj.
    rewrite lookup_alter_last, Hj. cbn. eexists. split; [reflexivity|].
    by destruct (decide _).
Qed.

Lemma step_keepsHistory_witness :
  exists car',
    step (run [CallAddCar 1000 Samples.toyota; CallSaveAnalysis 2000 "1000" "[]"])
         (CallUpdateLatestReportComparison "1000" "Scratch is new") !! 0%nat
    = Some car'
    /\ keepsHistory
         {| id := "1000"; make := "Toyota"; model := "Camry";
            registrationNumber := "ABC123"; photos := [];
            analysisResults := Some "[]";
            reports := Some [ {| stage := 1; timestamp := 2000; results := "[]";
                                 comparison := None; report_photos := [] |} ];
            status := analyzed |}
         car'.
Proof.
  exact (step_keepsHistory
           (run [CallAddCar 1000 Samples.toyota; CallSaveAnalysis 2000 "1000" "[]"])
           (CallUpdateLatestReportComparison "1000" "Scratch is new") 0%nat _
           eq_refl eq_refl).
Defined.

(** X9: [updateLatestReportComparison(id, text)] on a matching record with
    stages: the last stage gets the text as its comparison, replacing any
    earlier text; the other stages and every other field stay as they
    are. *)
Theorem updateLatestReportComparison_last id' comparison' cars (i : nat) car earlier r :
  cars !! i = Some car ->
  id car = id' ->
  reports car = Some (earlier ++ [r]) ->
  snd (updateLatestReportComparison id' comparison' cars) !! i =
  Some {| id := id car; make := make car; model := model car;
          registrationNumber := registrationNumber car;
          photos := photos car; analysisResults := analysisResults car;
          reports :=
            Some (earlier ++ [ {| stage := stage r; timestamp := timestamp r;
                                  results := results r;
                                  comparison := Some comparison';
                                  report_photos := report_photos r |} ]);
          status := status car |}.
Proof.
  intros Hi Hid Hrep. unfold updateLatestReportComparison, setCars. cbn.
  rewrite list_lookup_fmap, Hi. cbn. rewrite Hrep.
  destruct (decide _) as [_|Hno].
  - do 3 f_equal. rewrite length_app. cbn.
    replace (length earlier + 1 - 1)%nat with (length earlier + 0)%nat by lia.
    by rewrite alter_app_r.
  - exfalso. apply Hno. split; [done|]. rewrite length_app. cbn. lia.
Qed.

Lemma updateLatestReportComparison_last_witness :
  snd (updateLatestReportComparison "1000" "Scratch is new"
         (run [CallAddCar 1000 Samples.toyota; CallSaveAnalysis 2000 "1000" "[]"]))
    !! 0%nat
  = Some {| id := "1000"; make := "Toyota"; model := "Camry";
            registrationNumber := "ABC123"; photos := [];
            analysisResults := Some "[]";
            reports := Some ([] ++ [ {| stage := 1; timestamp := 2000; results := "[]";
                                        comparison := Some "Scratch is new";
                                        report_photos := [] |} ]);
            status := analyzed |}.
Proof.
  exact (updateLatestReportComparison_last "1000" "Scratch is new"
           (run [CallAddCar 1000 Samples.toyota; CallSaveAnalysis 2000 "1000" "[]"])
           0%nat
           {| id := "1000"; make := "Toyota"; model := "Camry";
              registrationNumber := "ABC123"; photos := [];
              analysisResults := Some "[]";
              reports := Some [ {| stage := 1; timestamp := 2000; results := "[]";
                                   comparison := None; report_photos := [] |} ];
              status := analyzed |}
           [] {| stage := 1; timestamp := 2000; results := "[]";
                 comparison := None; report_photos := [] |}
           eq_refl eq_refl eq_refl).
Defined.

(** X10: [updateLatestReportComparison] is a silent no-op when no record with
    that id has a stage, be it that the id is unknown or that the record
    was never analysed. *)
Theorem updateLatestReportComparison_no_stage id' comparison' cars :
  (forall car, car ∈ cars -> id car = id' -> stageCount car = 0%nat) ->
  updateLatestReportComparison id' comparison' cars = (Fulfilled tt, cars).
Proof.
  intros Hno. unfold updateLatestReportComparison, setCars. f_equal.
  rewrite <- (list_fmap_id cars) at 2.
  apply list_fmap_ext. intros i car Hi. cbn.
  destruct (reports car) as [l|] eqn:Hrep; [|done].
  destruct (decide _) as [[Hid Hlen]|_]; [|done].
  exfalso. apply list_elem_of_lookup_2 in Hi.
  specialize (Hno car Hi Hid). unfold stageCount in Hno. rewrite Hrep in Hno.
  cbn in Hno. lia.
Qed.

Lemma updateLatestReportComparison_no_stage_witness :
  updateLatestReportComparison "1000" "Scratch is new"
    (run [CallAddCar 1000 Samples.toyota; CallUpdateCarPhotos "1000" ["p1"]])
  = (Fulfilled tt,
     run [CallAddCar 1000 Samples.toyota; CallUpdateCarPhotos "1000" ["p1"]]).
Proof.
  apply updateLatestReportComparison_no_stage.
  intros car Hin _. apply list_elem_of_singleton in Hin as ->. reflexivity.
Defined.

End RepositoryInvariants.

(** ** The screens *)

Section ScreensAndRepository.
Import Js CarsContext CarsInvariants Screens.

Implicit Types (cars : list Car) (car : Car).

Lemma reachable_analyzed_has_last cars car :
  reachable cars -> car ∈ cars -> status car = analyzed ->
  exists r, last (orArray (reports car) []) = Some r
            /\ analysisResults car = Some (results r).
Proof.
  intros Hreach Hin Hstatus.
  assert (Hstaged : Forall analyzedOnlyIfStaged cars).
  { clear Hin. induction Hreach as [|cars c _ IH]; [constructor|].
    apply step_Forall; [| |exact IH].
    - intros now carData _. split; [discriminate|cbn; lia].
    - intros car0 car' Hcar Hin. by eapply analyzedOnlyIfStaged_step. }
  pose proof (reachable_latestResultsShown cars Hreach) as Hshown.
  rewrite Forall_forall in Hstaged, Hshown.
  destruct (Hstaged car Hin) as [Hpos _]. specialize (Hpos Hstatus).
  unfold stageCount in Hpos.
  destruct (last (orArray (reports car) [])) as [r|] eqn:Hlast.
  - exists r. split; [done|]. by apply Hshown.
  - apply last_None in Hlast. rewrite Hlast in Hpos. cbn in Hpos. lia.
Qed.

(** X11: pressing a car of the cars screen that is [analyzed], in any
    collection the operations can build: the report opens with the results
    of the car's latest stage; only when those results are the empty
    string does the upload screen open instead. *)
Theorem handleCarPress_analyzed cars car :
  reachable cars -> car ∈ cars -> status car = analyzed ->
  exists r,
    last (orArray (reports car) []) = Some r
    /\ handleCarPress car =
       if decide (results r = "") then
         {| pathname := "/photos"; params := [("carId", id car); ("mode", "upload")] |}
       else
         {| pathname := "/report";
            params := [("inspectionId", id car); ("results", results r)] |}.
Proof.
  intros Hreach Hin Hstatus.
  destruct (reachable_analyzed_has_last cars car Hreach Hin Hstatus)
    as (r & Hlast & Hresults).
  exists r. split; [done|]. unfold handleCarPress, truthy.
  rewrite Hresults, Hstatus. cbn [default].
  rewrite (bool_decide_eq_true_2 (analyzed = analyzed)) by done.
  rewrite (bool_decide_eq_false_2 (analyzed = completed)) by done.
  destruct (decide (results r = "")) as [Hempty|Hfull].
  - by rewrite (bool_decide_eq_false_2 (results r <> "")) by (intros Hne; by apply Hne).
  - by rewrite (bool_decide_eq_true_2 (results r <> "")).
Qed.

Lemma handleCarPress_analyzed_witness :
  exists r,
    last (orArray (reports MoreSamples.analyzedToyota) []) = Some r
    /\ handleCarPress MoreSamples.analyzedToyota =
       if decide (results r = "") then
         {| pathname := "/photos";
            params := [("carId", id MoreSamples.analyzedToyota); ("mode", "upload")] |}
       else
         {| pathname := "/report";
            params := [("inspectionId", id MoreSamples.analyzedToyota);
                       ("results", results r)] |}.
Proof.
  apply (handleCarPress_analyzed
           (run [CallAddCar 1000 Samples.toyota; CallSaveAnalysis 2000 "1000" "[]"])
           MoreSamples.analyzedToyota).
  - apply reachable_run.
  - vm_compute. left.
  - reflexivity.
Defined.

(** X12: the cars listed on the claims screen, in any collection the operations
    can build, are the [analyzed] cars with non-empty results; each has at
    least one stage, and the results handed to the report are those of its
    latest stage. *)
Theorem claimCars_have_latest_results cars car :
  reachable cars -> car ∈ claimCars cars ->
  car ∈ cars /\ status car = analyzed
  /\ exists r, last (orArray (reports car) []) = Some r
               /\ analysisResults car = Some (results r) /\ results r <> "".
Proof.
  intros Hreach Hin. unfold claimCars in Hin.
  apply list_elem_of_filter in Hin as [Hcond Hin].
  apply andb_True in Hcond as [Hstatus Htruthy].
  apply bool_decide_unpack in Hstatus.
  split; [done|]. split; [done|].
  destruct (reachable_analyzed_has_last cars car Hreach Hin Hstatus)
    as (r & Hlast & Hresults).
  exists r. split; [done|]. split; [done|].
  rewrite Hresults in Htruthy. cbn in Htruthy. by apply bool_decide_unpack in Htruthy.
Qed.

Lemma claimCars_have_latest_results_witness :
  MoreSamples.analyzedToyota
    ∈ run [CallAddCar 1000 Samples.toyota; CallSaveAnalysis 2000 "1000" "[]"]
  /\ status MoreSamples.analyzedToyota = analyzed
  /\ exists r, last (orArray (reports MoreSamples.analyzedToyota) []) = Some r
               /\ analysisResults MoreSamples.analyzedToyota = Some (results r)
               /\ results r <> "".
Proof.
  apply (claimCars_have_latest_results
           (run [CallAddCar 1000 Samples.toyota; CallSaveAnalysis 2000 "1000" "[]"])
           MoreSamples.analyzedToyota).
  - apply reachable_run.
  - vm_compute. left.
Defined.

End ScreensAndRepository.

(** ** Batch analysis *)

Section BatchAnalysis.
Import Effects GeminiAnalysis.
Context {Service : Type}.
Variable service : string -> string -> Service -> Completion GeminiAnalysisResult * Service.

Lemma analyzeImage_pushedFor i imageUri s :
  pushedFor service i imageUri (fst (analyzeImage service i imageUri s)).
Proof.
  unfold analyzeImage, pushedFor.
  destruct (CarDetection.PHOTO_CONFIG !! i) as [config|].
  - destruct (service imageUri (CarDetection.label config) s) as [[r|e] s'] eqn:Hcall;
      cbn; (split; [done|]).
    + right. by exists config, s, s'.
    + by left.
  - cbn. split; [done|by left].
Qed.

Lemma analyzeFrom_spec i imageUris results s :
  length (fst (analyzeFrom service i imageUris results s))
  = (length results + length imageUris)%nat
  /\ (forall (k : nat) r, results !! k = Some r ->
        fst (analyzeFrom service i imageUris results s) !! k = Some r)
  /\ (forall (k : nat) imageUri, imageUris !! k = Some imageUri ->
        exists r,
          fst (analyzeFrom service i imageUris results s) !! (length results + k)%nat
          = Some r
          /\ pushedFor service (i + k) imageUri r).
Proof.
  revert i results s.
  induction imageUris as [|imageUri rest IH]; intros i results s; cbn [analyzeFrom].
  - cbn. split; [lia|]. split; [done|]. intros k uri Hk. by rewrite lookup_nil in Hk.
  - pose proof (analyzeImage_pushedFor i imageUri s) as Hpushed.
    destruct (analyzeImage service i imageUri s) as [r s'] eqn:Hbody. cbn in Hpushed.
    destruct (IH (S i) (results ++ [r]) s') as (Hlen & Hkeep & Hnew).
    rewrite length_app in Hlen, Hnew. cbn in Hlen, Hnew.
    split; [cbn; lia|]. split.
    + intros k r0 Hk. apply Hkeep. by apply lookup_app_l_Some.
    + intros [|k] uri Hk.
      * injection Hk as <-. exists r. rewrite !Nat.add_0_r. split; [|done].
        apply Hkeep. rewrite lookup_app_r by lia. by rewrite Nat.sub_diag.
      * cbn in Hk. destruct (Hnew k uri Hk) as (r0 & Hr0 & Hp).
        exists r0. split.
        -- rewrite <- Hr0. f_equal. lia.
        -- replace (i + S k)%nat with (S i + k)%nat by lia. done.
Qed.

Lemma analyzeBatchCarDamage_spec imageUris s :
  length (fst (analyzeBatchCarDamage service imageUris s)) = length imageUris
  /\ forall (i : nat) imageUri, imageUris !! i = Some imageUri ->
       exists r,
         fst (analyzeBatchCarDamage service imageUris s) !! i = Some r
         /\ pushedFor service i imageUri r.
Proof.
  unfold analyzeBatchCarDamage.
  destruct (analyzeFrom_spec 0 imageUris [] s) as (Hlen & _ & Hnew).
  split; [exact Hlen|]. intros i imageUri Hi.
  destruct (Hnew i imageUri Hi) as (r & Hr & Hpushed). by exists r.
Qed.

(** X13: the batch never aborts: whatever the service does, there is exactly
    one result per image, in the order of the images. The result for an
    image is the one the service returned for it, or the synthetic
    "Analysis Failed" result; images past the ninth always get the
    synthetic result, because they have no entry in [PHOTO_CONFIG]. *)
Theorem analyzeBatchCarDamage_one_result_per_image imageUris s :
  length (fst (analyzeBatchCarDamage service imageUris s)) = length imageUris
  /\ forall (i : nat) imageUri, imageUris !! i = Some imageUri ->
       exists r,
         fst (analyzeBatchCarDamage service imageUris s) !! i = Some r
         /\ ((9 <= i)%nat -> r = analysisFailed)
         /\ (r = analysisFailed
             \/ exists config s0 s1,
                  CarDetection.PHOTO_CONFIG !! i = Some config
                  /\ service imageUri (CarDetection.label config) s0 = (Normal r, s1)).
Proof.
  destruct (analyzeBatchCarDamage_spec imageUris s) as (Hlen & Hnew).
  split; [exact Hlen|]. intros i imageUri Hi.
  destruct (Hnew i imageUri Hi) as (r & Hr & Hnone & Hsome).
  exists r. split; [done|]. split; [|done].
  intros Hbig. apply Hnone. by apply lookup_ge_None_2.
Qed.

(** X14: when every call to the service fails, each image gets the synthetic
    result, and the damage report built from the batch reads "No damage
    detected in any photos". *)
Theorem analyzeBatchCarDamage_all_calls_fail imageUris s :
  (forall imageUri label s0, exists e s1, service imageUri label s0 = (Throw e, s1)) ->
  fst (analyzeBatchCarDamage service imageUris s)
  = replicate (length imageUris) analysisFailed
  /\ generateDamageReport (fst (analyzeBatchCarDamage service imageUris s))
     = {| totalImages := length imageUris;
          damageCount := 0;
          averageSeverity := "none";
          summary := "No damage detected in any photos" |}.
Proof.
  intros Hfail.
  assert (Hall : fst (analyzeBatchCarDamage service imageUris s)
                 = replicate (length imageUris) analysisFailed).
  { destruct (analyzeBatchCarDamage_spec imageUris s)
      as (Hlen & Hnew).
    apply list_eq. intros i. destruct (imageUris !! i) as [uri|] eqn:Hi.
    - destruct (Hnew i uri Hi) as (r & Hr & _ & [->|(config & s0 & s1 & _ & Hcall)]).
      + rewrite Hr. symmetry. apply lookup_replicate_2. by eapply lookup_lt_Some.
      + destruct (Hfail uri (CarDetection.label config) s0) as (e & s1' & Hthrow).
        congruence.
    - apply lookup_ge_None in Hi.
      rewrite lookup_ge_None_2 by lia.
      symmetry. apply lookup_ge_None_2. rewrite length_replicate. lia. }
  split; [exact Hall|]. rewrite Hall.
  assert (Hnone : forall n,
            filter (fun r => hasDamage r) (replicate n analysisFailed) = []).
  { induction n as [|n IH]; [done|]. cbn [replicate].
    rewrite filter_cons_False; [exact IH|]. cbn. by intros []. }
  unfold generateDamageReport. rewrite Hnone, length_replicate. reflexivity.
Qed.

End BatchAnalysis.

Lemma analyzeBatchCarDamage_all_calls_fail_witness :
  fst (GeminiAnalysis.analyzeBatchCarDamage
         (fun _ _ (s : unit) => (Effects.Throw "Network request failed", s))
         ["file:///front.jpg"; "file:///back.jpg"] tt)
  = replicate (length ["file:///front.jpg"; "file:///back.jpg"])
      GeminiAnalysis.analysisFailed
  /\ GeminiAnalysis.generateDamageReport
       (fst (GeminiAnalysis.analyzeBatchCarDamage
               (fun _ _ (s : unit) => (Effects.Throw "Network request failed", s))
               ["file:///front.jpg"; "file:///back.jpg"] tt))
     = {| GeminiAnalysis.totalImages := length ["file:///front.jpg"; "file:///back.jpg"];
          GeminiAnalysis.damageCount := 0;
          GeminiAnalysis.averageSeverity := "none";
          GeminiAnalysis.summary := "No damage detected in any photos" |}.
Proof.
  apply (analyzeBatchCarDamage_all_calls_fail
           (fun _ _ (s : unit) => (Effects.Throw "Network request failed", s))).
  intros imageUri label s0. by exists "Network request failed", s0.
Defined.

(** ** The photos screen *)

Section PhotosScreen.
Import Js CarsContext CarsInvariants Screens.
Context {Service : Type}.
Variable service :
  string -> string -> Service
  -> Effects.Completion GeminiAnalysis.GeminiAnalysisResult * Service.
Variable stringify : list GeminiAnalysis.GeminiAnalysisResult -> string.

Lemma filter_fmap_comm {A B : Type} (f : A -> B) (P : B -> Prop)
    `{!forall y, Decision (P y)} (l : list A) :
  filter P (f <$> l) = f <$> filter (fun x => P (f x)) l.
Proof.
  induction l as [|x l IH]; [done|].
  rewrite fmap_cons, !filter_cons, IH. by destruct (decide (P (f x))).
Qed.

Lemma photosWithUri_replicate_empty n :
  photosWithUri (replicate n {| uri := "" |}) = [].
Proof.
  unfold photosWithUri. induction n as [|n IH]; [done|]. cbn [replicate].
  rewrite filter_cons_False; [exact IH|]. cbn. by intros Hne.
Qed.

Lemma uris_of_loaded (photos' : list string) :
  uri <$> photosWithUri ((fun u => {| uri := u |}) <$> photos')
  = filter (fun u => u <> "") photos'.
Proof.
  unfold photosWithUri. rewrite filter_fmap_comm, <- list_fmap_compose. cbn.
  apply list_fmap_id.
Qed.

(** X15: the photos screen starts with at least nine slots, the car's photos
    first; saving or analysing straight away hands the repository the
    car's photos again, in their order, without the empty ones. *)
Theorem initPhotos_round_trip (currentCar : option Car) :
  length (initPhotos currentCar)
  = Nat.max TOTAL_PHOTOS (length (from_option photos [] currentCar))
  /\ uri <$> photosWithUri (initPhotos currentCar)
     = filter (fun u => u <> "") (from_option photos [] currentCar).
Proof.
  unfold initPhotos, TOTAL_PHOTOS.
  destruct currentCar as [car|]; cbn [from_option]; [|by split].
  destruct (photos car) as [|photo rest] eqn:Hphotos; [by split|].
  cbn [length Nat.ltb Nat.leb]. split.
  - rewrite length_app, length_replicate, length_fmap. cbn [length]. lia.
  - unfold photosWithUri. rewrite filter_app.
    fold (photosWithUri (replicate (9 - length ((fun u => {| uri := u |})
                                                 <$> photo :: rest)) {| uri := "" |})).
    rewrite photosWithUri_replicate_empty, app_nil_r.
    apply uris_of_loaded.
Qed.

(** X16: [handleSave] never stores an empty photo set nor an empty photo
    reference: each record after it is a record there was before, or a
    record with the given id, status [completed] and a non-empty list of
    non-empty references. With no photo taken the repository is left
    alone. *)
Theorem handleSave_stores_taken_photos carId photos' cars :
  (forall car', car' ∈ snd (handleSave carId photos' cars) ->
     car' ∈ cars
     \/ (id car' = carId /\ status car' = completed
         /\ CarsContext.photos car' <> []
         /\ Forall (fun u => u <> "") (CarsContext.photos car')))
  /\ (photosWithUri photos' = [] -> handleSave carId photos' cars = (Fulfilled tt, cars)).
Proof.
  unfold handleSave. split.
  - intros car' Hin.
    destruct (photosWithUri photos') as [|p rest] eqn:Hwith; cbn in Hin; [by left|].
    apply list_elem_of_fmap in Hin as (car & -> & Hin).
    destruct (decide (id car = carId)) as [Hid|_]; [|by left].
    right. cbn. repeat split; [done|done|].
    rewrite <- fmap_cons, <- Hwith. apply Forall_fmap, Forall_forall.
    intros q Hq. unfold photosWithUri in Hq.
    by apply list_elem_of_filter in Hq as [Hne _].
  - by intros ->.
Qed.

(** X17: [handleAnalyze] with at least one photo taken, for the record at any
    position whose id is the screen's car: afterwards the record's photos
    are the taken photos, it is [analyzed], its results are the serialised
    batch, and it has one more stage whose snapshot is those same photos
    and whose results are the same string; the report opens with that
    string; there is one result per photo; other records are untouched. *)
Theorem handleAnalyze_records_stage now carId photos' s cars (i : nat) car :
  photosWithUri photos' <> [] ->
  cars !! i = Some car ->
  id car = carId ->
  exists results s' cars',
    GeminiAnalysis.analyzeBatchCarDamage service (uri <$> photosWithUri photos') s
    = (results, s')
    /\ length results = length (photosWithUri photos')
    /\ handleAnalyze service stringify now carId photos' s cars
       = (Some {| pathname := "/report";
                  params := [("inspectionId", carId); ("results", stringify results)] |},
          s', cars')
    /\ cars' !! i
       = Some (withAnalysis now (stringify results)
                 (withPhotos (uri <$> photosWithUri photos') car))
    /\ (forall (j : nat) other, cars !! j = Some other -> id other <> carId ->
          cars' !! j = Some other).
Proof.
  intros Hsome Hi Hid. unfold handleAnalyze.
  destruct (photosWithUri photos') as [|p rest] eqn:Hwith; [done|]. clear Hsome.
  cbn [length Nat.eqb].
  pose proof (analyzeBatchCarDamage_spec service (uri <$> p :: rest) s) as [Hlen _].
  destruct (GeminiAnalysis.analyzeBatchCarDamage service (uri <$> p :: rest) s)
    as [results s'] eqn:Hbatch.
  cbn [fst] in Hlen. rewrite length_fmap in Hlen.
  eexists results, s', _. split; [reflexivity|]. split; [exact Hlen|].
  split; [reflexivity|]. split.
  - unfold saveAnalysis, updateCarPhotos, setCars. cbn [snd].
    rewrite !list_lookup_fmap, Hi. cbn.
    destruct (decide (id car = carId)); [|done]. cbn.
    by destruct (decide (id car = carId)).
  - intros j other Hj Hne.
    unfold saveAnalysis, updateCarPhotos, setCars. cbn [snd].
    rewrite !list_lookup_fmap, Hj. cbn.
    destruct (decide (id other = carId)); [done|]. cbn.
    by destruct (decide (id other = carId)).
Qed.

End PhotosScreen.

Lemma handleAnalyze_records_stage_witness :
  exists results s' cars',
    GeminiAnalysis.analyzeBatchCarDamage
      (fun _ _ (s : unit) => (Effects.Normal Samples.cleanResult, s))
      (Screens.uri <$> Screens.photosWithUri
                         [Screens.mkPhoto "p1"; Screens.mkPhoto ""; Screens.mkPhoto "p3"])
      tt
    = (results, s')
    /\ length results
       = length (Screens.photosWithUri
                   [Screens.mkPhoto "p1"; Screens.mkPhoto ""; Screens.mkPhoto "p3"])
    /\ Screens.handleAnalyze
         (fun _ _ (s : unit) => (Effects.Normal Samples.cleanResult, s))
         (fun results => Js.natToString (length results))
         3000 "1000"
         [Screens.mkPhoto "p1"; Screens.mkPhoto ""; Screens.mkPhoto "p3"]
         tt [MoreSamples.analyzedToyota]
       = (Some {| Screens.pathname := "/report";
                  Screens.params :=
                    [("inspectionId", "1000");
                     ("results", Js.natToString (length results))] |},
          s', cars')
    /\ cars' !! 0%nat
       = Some (CarsInvariants.withAnalysis 3000 (Js.natToString (length results))
                 (CarsInvariants.withPhotos
                    (Screens.uri <$> Screens.photosWithUri
                       [Screens.mkPhoto "p1"; Screens.mkPhoto ""; Screens.mkPhoto "p3"])
                    MoreSamples.analyzedToyota))
    /\ (forall (j : nat) other,
          [MoreSamples.analyzedToyota] !! j = Some other ->
          CarsContext.id other <> "1000" -> cars' !! j = Some other).
Proof.
  apply (handleAnalyze_records_stage
           (fun _ _ (s : unit) => (Effects.Normal Samples.cleanResult, s))
           (fun results => Js.natToString (length results))
           3000 "1000"
           [Screens.mkPhoto "p1"; Screens.mkPhoto ""; Screens.mkPhoto "p3"]
           tt [MoreSamples.analyzedToyota] 0%nat MoreSamples.analyzedToyota).
  - vm_compute. discriminate.
  - reflexivity.
  - reflexivity.
Defined.

(** ** More on the stage differ *)

Section StageDifferMore.
Import Js GeminiAnalysis ComparisonReport.

Implicit Types (oldResults newResults : list GeminiAnalysisResult) (i : nat).

Lemma swap_if_changed {A : Type} `{!EqDecision A} (a b : A) (ch : FieldChange) :
  (if decide (b <> a) then [swapChange ch] else [])
  = swapChange <$> (if decide (a <> b) then [ch] else []).
Proof.
  destruct (decide (a <> b)) as [Hne|Heq].
  - by rewrite decide_True by (intros Hba; by apply Hne).
  - apply dec_stable in Heq. rewrite decide_False; [done|]. intros Hba. by apply Hba.
Qed.

Lemma angleChangesAt_swap oldResults newResults i :
  angleChangesAt newResults oldResults i
  = swapChange <$> angleChangesAt oldResults newResults i.
Proof.
  unfold angleChangesAt.
  destruct (oldResults !! i) as [oldItem|], (newResults !! i) as [newItem|];
    try reflexivity.
  rewrite !fmap_app, <- !swap_if_changed. reflexivity.
Qed.

Lemma angleDiffAt_swap oldResults newResults i :
  angleDiffAt newResults oldResults i = swapAngle (angleDiffAt oldResults newResults i).
Proof.
  unfold angleDiffAt, swapAngle. cbn.
  by rewrite angleChangesAt_swap, length_fmap.
Qed.

(** X18: comparing in the other direction gives the same summary and verdict
    and the same angles, each change read backwards: old and new values
    exchanged, [added] and [removed] exchanged. In particular both
    directions report the same fields for the same slots. *)
Theorem compareStructuredReports_swap oldResults newResults :
  compareStructuredReports newResults oldResults
  = {| summary := summary (compareStructuredReports oldResults newResults);
       angles := swapAngle <$> angles (compareStructuredReports oldResults newResults);
       overallConfirm :=
         overallConfirm (compareStructuredReports oldResults newResults) |}.
Proof.
  rewrite !compareStructuredReports_unfold, !loop_slots.
  cbn [summary angles overallConfirm fst snd].
  rewrite (Nat.max_comm (length newResults)).
  set (slots := seq 0 (Nat.max (length oldResults) (length newResults))).
  assert (Hslots : angleDiffAt newResults oldResults <$> slots
                   = swapAngle <$> (angleDiffAt oldResults newResults <$> slots)).
  { rewrite <- list_fmap_compose. apply list_fmap_ext.
    intros j i _. apply angleDiffAt_swap. }
  assert (Hfound :
            existsb (fun i => hasChanges (angleDiffAt newResults oldResults i)) slots
            = existsb (fun i => hasChanges (angleDiffAt oldResults newResults i)) slots).
  { induction slots as [|i slots' IH]; [done|]. cbn [existsb].
    rewrite angleDiffAt_swap at 1. cbn [hasChanges swapAngle]. f_equal.
    apply IH. rewrite !fmap_cons in Hslots. by injection Hslots. }
  rewrite Hfound, Hslots. f_equal.
  rewrite filter_fmap_comm. reflexivity.
Qed.

Lemma angleChangesAt_nil_iff oldResults newResults i :
  angleChangesAt oldResults newResults i = [] <->
  (oldResults !! i = None /\ newResults !! i = None)
  \/ (exists oldItem newItem,
        oldResults !! i = Some oldItem /\ newResults !! i = Some newItem
        /\ sameFields oldItem newItem).
Proof.
  unfold angleChangesAt, sameFields.
  destruct (oldResults !! i) as [oldItem|], (newResults !! i) as [newItem|].
  - split.
    + intros Hnil. right. exists oldItem, newItem. split; [done|]. split; [done|].
      repeat case_decide; try discriminate Hnil. done.
    + intros [[? _]|(o & n & [= <-] & [= <-] & Hsev & Htype & Hdesc & Hdamage)];
        [done|].
      rewrite !decide_False; [done|..]; intros Hne; by apply Hne.
  - split; [done|]. intros [[? _]|(o & n & _ & ? & _)]; done.
  - split; [done|]. intros [[_ ?]|(o & n & ? & _ & _)]; done.
  - split; [by left|done].
Qed.

(** X19: the differ finds no difference exactly when the two arrays have the
    same length and, slot by slot, the same severity, damage type,
    description and damage flag; recommendations, verification flag and
    note play no part. *)
Theorem compareStructuredReports_no_difference_iff oldResults newResults :
  overallConfirm (compareStructuredReports oldResults newResults) = false
  <-> length oldResults = length newResults
      /\ forall i oldItem newItem,
           oldResults !! i = Some oldItem -> newResults !! i = Some newItem ->
           severity oldItem = severity newItem
           /\ damageType oldItem = damageType newItem
           /\ description oldItem = description newItem
           /\ hasDamage oldItem = hasDamage newItem.
Proof.
  rewrite compareStructuredReports_unfold. cbn [overallConfirm].
  rewrite <- not_true_iff_false, differencesFound_iff. split.
  - intros Hnone.
    assert (Hnil : forall i, angleChangesAt oldResults newResults i = []).
    { intros i. destruct (angleChangesAt oldResults newResults i) eqn:Hi; [done|].
      exfalso. apply Hnone. exists i. by rewrite Hi. }
    split.
    + destruct (Nat.lt_trichotomy (length oldResults) (length newResults))
        as [Hlt|[Heq|Hgt]]; [|done|].
      * specialize (Hnil (length oldResults)).
        apply angleChangesAt_nil_iff in Hnil as [[_ Hn]|(o & n & Ho & _)].
        -- apply lookup_ge_None in Hn. lia.
        -- apply lookup_lt_Some in Ho. lia.
      * specialize (Hnil (length newResults)).
        apply angleChangesAt_nil_iff in Hnil as [[Ho _]|(o & n & _ & Hn & _)].
        -- apply lookup_ge_None in Ho. lia.
        -- apply lookup_lt_Some in Hn. lia.
    + intros i oldItem newItem Ho Hn. specialize (Hnil i).
      apply angleChangesAt_nil_iff in Hnil as [[Ho' _]|(o & n & Ho' & Hn' & Hsame)];
        [congruence|].
      rewrite Ho in Ho'. rewrite Hn in Hn'.
      injection Ho' as <-. injection Hn' as <-. exact Hsame.
  - intros [Hlen Hsame] (i & Hi). apply Hi. apply angleChangesAt_nil_iff.
    destruct (oldResults !! i) as [oldItem|] eqn:Ho,
             (newResults !! i) as [newItem|] eqn:Hn.
    + right. exists oldItem, newItem. split; [done|]. split; [done|].
      by apply (Hsame i).
    + apply lookup_lt_Some in Ho. apply lookup_ge_None in Hn. lia.
    + apply lookup_ge_None in Ho. apply lookup_lt_Some in Hn. lia.
    + by left.
Qed.

Lemma StronglySorted_lt_seq (start len : nat) : StronglySorted lt (seq start len).
Proof.
  revert start. induction len as [|len IH]; intros start; cbn; constructor.
  - apply IH.
  - apply Forall_forall. intros j Hj%elem_of_seq. lia.
Qed.

Lemma StronglySorted_filter {A : Type} (R : A -> A -> Prop) (P : A -> Prop)
    `{!forall x, Decision (P x)} (l : list A) :
  StronglySorted R l -> StronglySorted R (filter P l).
Proof.
  induction 1 as [|x l Hsorted IH Hall]; [constructor|].
  rewrite filter_cons. destruct (decide (P x)); [|exact IH].
  constructor; [exact IH|]. apply Forall_forall.
  intros y [_ Hy]%list_elem_of_filter. revert y Hy. by apply Forall_forall.
Qed.

Lemma index_angles oldResults newResults :
  index <$> angles (compareStructuredReports oldResults newResults)
  = filter (fun i => hasChanges (angleDiffAt oldResults newResults i))
      (seq 0 (Nat.max (length oldResults) (length newResults))).
Proof.
  rewrite compareStructuredReports_unfold, loop_slots.
  cbn [angles fst]. rewrite filter_fmap_comm, <- list_fmap_compose.
  apply list_fmap_id.
Qed.

(** X20: the returned angles come in slot order, each slot at most once, and
    every returned index is a slot of one of the two arrays; so there are
    at most as many angles as the longer array has slots. *)
Theorem compareStructuredReports_angles_in_slot_order oldResults newResults :
  StronglySorted lt (index <$> angles (compareStructuredReports oldResults newResults))
  /\ Forall (fun a => (index a < Nat.max (length oldResults) (length newResults))%nat)
       (angles (compareStructuredReports oldResults newResults))
  /\ (length (angles (compareStructuredReports oldResults newResults))
      <= Nat.max (length oldResults) (length newResults))%nat.
Proof.
  split; [|split].
  - rewrite index_angles. apply StronglySorted_filter, StronglySorted_lt_seq.
  - apply Forall_forall. intros a Ha.
    assert (Hin : index a
                  ∈ index <$> angles (compareStructuredReports oldResults newResults)).
    { apply list_elem_of_fmap. by exists a. }
    rewrite index_angles in Hin.
    apply list_elem_of_filter in Hin as [_ Hin]. apply elem_of_seq in Hin. lia.
  - rewrite <- (length_fmap index), index_angles.
    etrans; [apply length_filter|]. by rewrite length_seq.
Qed.

(** X21: a slot that only the new array has is reported as one [added] record,
    a slot that only the old array has as one [removed] record; nothing
    about the content of the record is reported. *)
Theorem compareStructuredReports_added_removed oldResults newResults i :
  ((length oldResults <= i < length newResults)%nat ->
     angleDiffAt oldResults newResults i
       ∈ angles (compareStructuredReports oldResults newResults)
     /\ changes (angleDiffAt oldResults newResults i)
        = [ {| field := "Record"; oldValue := null; newValue := str "Present";
               type := added |} ])
  /\ ((length newResults <= i < length oldResults)%nat ->
        angleDiffAt oldResults newResults i
          ∈ angles (compareStructuredReports oldResults newResults)
        /\ changes (angleDiffAt oldResults newResults i)
           = [ {| field := "Record"; oldValue := str "Present"; newValue := null;
                  type := removed |} ]).
Proof.
  split; intros [Hge Hlt].
  - assert (Hchanges : angleChangesAt oldResults newResults i
                       = [ {| field := "Record"; oldValue := null;
                              newValue := str "Present"; type := added |} ]).
    { unfold angleChangesAt. rewrite (lookup_ge_None_2 oldResults) by done.
      destruct (lookup_lt_is_Some_2 newResults i Hlt) as [newItem ->]. done. }
    split; [|exact Hchanges].
    apply elem_of_angles. exists i. split; [done|]. by rewrite Hchanges.
  - assert (Hchanges : angleChangesAt oldResults newResults i
                       = [ {| field := "Record"; oldValue := str "Present";
                              newValue := null; type := removed |} ]).
    { unfold angleChangesAt. rewrite (lookup_ge_None_2 newResults) by done.
      destruct (lookup_lt_is_Some_2 oldResults i Hlt) as [oldItem ->]. done. }
    split; [|exact Hchanges].
    apply elem_of_angles. exists i. split; [done|]. by rewrite Hchanges.
Qed.

Lemma angleChangesAt_shape oldResults newResults i :
  (length (angleChangesAt oldResults newResults i) <= 4)%nat
  /\ Forall (fun ch => type ch <> unchanged) (angleChangesAt oldResults newResults i).
Proof.
  unfold angleChangesAt.
  destruct (oldResults !! i) as [oldItem|], (newResults !! i) as [newItem|];
    repeat case_decide; cbn; (split; [lia|]);
    repeat (constructor; [discriminate|]); constructor.
Qed.

Lemma PHOTO_CONFIG_labels :
  Forall (fun config => CarDetection.label config <> "") CarDetection.PHOTO_CONFIG.
Proof. repeat (constructor; [discriminate|]). constructor. Qed.

(** X22: every returned angle carries between one and four changes, none of
    type [unchanged], under the label of its slot: the label of
    [PHOTO_CONFIG] for the nine configured slots, "Angle n" (counting
    from 1) beyond them. *)
Theorem compareStructuredReports_angle_shape oldResults newResults :
  Forall (fun a =>
            (1 <= length (changes a) <= 4)%nat
            /\ Forall (fun ch => type ch <> unchanged) (changes a)
            /\ label a = match CarDetection.PHOTO_CONFIG !! index a with
                         | Some config => CarDetection.label config
                         | None => "Angle " +:+ natToString (index a + 1)
                         end)
    (angles (compareStructuredReports oldResults newResults)).
Proof.
  apply Forall_forall. intros a Ha. apply elem_of_angles in Ha as (i & -> & Hi).
  destruct (angleChangesAt_shape oldResults newResults i) as [Hlen Htypes].
  cbn [changes index label angleDiffAt]. split; [|split; [exact Htypes|]].
  - split; [|exact Hlen]. destruct (angleChangesAt oldResults newResults i); [done|].
    cbn. lia.
  - destruct (CarDetection.PHOTO_CONFIG !! i) as [config|] eqn:Hconfig; [|done].
    cbn. rewrite decide_False; [done|].
    pose proof PHOTO_CONFIG_labels as Hlabels. rewrite Forall_forall in Hlabels.
    apply Hlabels. by eapply list_elem_of_lookup_2.
Qed.

Lemma compareStructuredReports_added_removed_witness :
  (length [Samples.cleanResult] <= 1 < length [Samples.cleanResult; Samples.dentedResult])%nat
  /\ angleDiffAt [Samples.cleanResult] [Samples.cleanResult; Samples.dentedResult] 1
       ∈ angles (compareStructuredReports
                   [Samples.cleanResult] [Samples.cleanResult; Samples.dentedResult])
  /\ changes (angleDiffAt [Samples.cleanResult]
                [Samples.cleanResult; Samples.dentedResult] 1)
     = [ {| field := "Record"; oldValue := null; newValue := str "Present";
            type := added |} ].
Proof.
  assert (Hslot : (length [Samples.cleanResult] <= 1
                   < length [Samples.cleanResult; Samples.dentedResult])%nat)
    by (cbn; lia).
  split; [exact Hslot|].
  exact (proj1 (compareStructuredReports_added_removed
                  [Samples.cleanResult] [Samples.cleanResult; Samples.dentedResult] 1)
           Hslot).
Defined.

End StageDifferMore.

(** ** More on the damage report and the report screen *)

Section DamageReportMore.
Import Js GeminiAnalysis ReportScreen.

Lemma severity_sum_bounds (severities : list Severity) (acc : Z) :
  acc <= fold_left (fun sum s => sum + severityOrder s) severities acc
      <= acc + 3 * Z.of_nat (length severities).
Proof.
  revert acc. induction severities as [|s severities IH]; intros acc; cbn [fold_left].
  - cbn. lia.
  - specialize (IH (acc + severityOrder s)).
    rewrite length_cons, Nat2Z.inj_succ. destruct s; cbn in *; lia.
Qed.

Lemma roundedQuotient_bounds sum count :
  0 < count -> 0 <= sum <= 3 * count -> 0 <= roundedQuotient sum count <= 3.
Proof.
  intros Hcount Hsum. unfold roundedQuotient. split.
  - apply Z.div_pos; lia.
  - apply Z.lt_succ_r. apply Z.div_lt_upper_bound; lia.
Qed.

Lemma find_severity_by_order average :
  0 <= average <= 3 ->
  exists s,
    severityOrder s = average
    /\ orString (severityName ∘ snd
                   <$> list_find (fun k => severityOrder k = average)
                         [none; minor; moderate; severe]) "minor"
       = severityName s.
Proof.
  intros Hrange.
  assert (Hcases : average = 0 \/ average = 1 \/ average = 2 \/ average = 3) by lia.
  destruct Hcases as [-> | [-> | [-> | ->]]];
    [exists none|exists minor|exists moderate|exists severe]; by split.
Qed.

(** X23: the report counts every image, its damage count never exceeds that
    total, its average severity is always one of the four severity names
    (the ['minor'] fallback of the lookup is never needed), and its summary
    is "No damage detected in any photos" exactly when the damage count
    is zero. *)
Theorem generateDamageReport_shape (results : list GeminiAnalysisResult) :
  totalImages (generateDamageReport results) = length results
  /\ (damageCount (generateDamageReport results) <= length results)%nat
  /\ (exists s,
        averageSeverity (generateDamageReport results) = severityName s
        /\ ((0 < damageCount (generateDamageReport results))%nat ->
              severityOrder s
              = roundedQuotient
                  (fold_left (fun sum s0 => sum + severityOrder s0)
                     (severity <$> filter (fun r => hasDamage r) results) 0)
                  (Z.of_nat (damageCount (generateDamageReport results)))))
  /\ (damageCount (generateDamageReport results) = 0%nat
      -> averageSeverity (generateDamageReport results) = "none")
  /\ (damageCount (generateDamageReport results) = 0%nat
      <-> summary (generateDamageReport results) = "No damage detected in any photos").
Proof.
  unfold generateDamageReport.
  cbn [totalImages damageCount averageSeverity summary].
  rewrite length_fmap.
  set (damaged := filter (fun r => hasDamage r) results).
  split; [done|]. split; [apply length_filter|]. split; [|split].
  - destruct (0 <? length damaged)%nat eqn:Hpos.
    2:{ apply Nat.ltb_ge in Hpos. exists none. split; [done|]. lia. }
    apply Nat.ltb_lt in Hpos.
    destruct (find_severity_by_order
                (roundedQuotient
                   (fold_left (fun sum s => sum + severityOrder s) (severity <$> damaged) 0)
                   (Z.of_nat (length damaged)))) as (s & Horder & Hname).
    + apply roundedQuotient_bounds; [lia|].
      pose proof (severity_sum_bounds (severity <$> damaged) 0) as Hsum.
      rewrite length_fmap in Hsum. lia.
    + exists s. by split.
  - by intros ->.
  - split.
    + by intros ->.
    + destruct (length damaged) as [|n]; [done|]. cbn. discriminate.
Qed.

(** X24: when all the photos reported as damaged have the same severity, that
    severity is the report's average, whatever the number of photos. *)
Theorem generateDamageReport_uniform_severity (results : list GeminiAnalysisResult) s :
  (exists r, r ∈ results /\ hasDamage r = true) ->
  (forall r, r ∈ results -> hasDamage r = true -> severity r = s) ->
  averageSeverity (generateDamageReport results) = severityName s.
Proof.
  intros (r0 & Hin0 & Hdamage0) Hsame. unfold generateDamageReport.
  cbn [averageSeverity]. rewrite length_fmap.
  set (damaged := filter (fun r => hasDamage r) results).
  assert (Hpos : (0 < length damaged)%nat).
  { assert (Hin : r0 ∈ damaged).
    { apply list_elem_of_filter. split; [by rewrite Hdamage0|done]. }
    destruct damaged; [by apply elem_of_nil in Hin|cbn; lia]. }
  rewrite (proj2 (Nat.ltb_lt _ _) Hpos).
  assert (Hsum : forall (l : list GeminiAnalysisResult) acc,
            Forall (fun r => severity r = s) l ->
            fold_left (fun sum s0 => sum + severityOrder s0) (severity <$> l) acc
            = acc + severityOrder s * Z.of_nat (length l)).
  { induction l as [|r l IH]; intros acc Hall; [cbn; lia|].
    apply Forall_cons in Hall as [Hr Hl].
    rewrite fmap_cons. cbn [fold_left]. rewrite IH by done.
    rewrite Hr, length_cons, Nat2Z.inj_succ. lia. }
  rewrite Hsum.
  2:{ apply Forall_forall. intros r [Hd Hin]%list_elem_of_filter.
      apply Hsame; [done|]. by apply Is_true_true. }
  assert (Hround : roundedQuotient (0 + severityOrder s * Z.of_nat (length damaged))
                     (Z.of_nat (length damaged)) = severityOrder s).
  { unfold roundedQuotient.
    replace (2 * (0 + severityOrder s * Z.of_nat (length damaged))
             + Z.of_nat (length damaged))
      with (severityOrder s * (2 * Z.of_nat (length damaged))
            + Z.of_nat (length damaged)) by lia.
    rewrite Z.div_add_l by lia. rewrite Z.div_small by lia. lia. }
  rewrite Hround. by destruct s.
Qed.

Lemma generateDamageReport_uniform_severity_witness :
  averageSeverity
    (generateDamageReport
       [Samples.dentedResult; Samples.cleanResult; Samples.dentedResult])
  = severityName moderate.
Proof.
  apply generateDamageReport_uniform_severity.
  - exists Samples.dentedResult. split; [left|reflexivity].
  - intros r Hin Hdamage.
    repeat (apply elem_of_cons in Hin as [->|Hin]; [try reflexivity; discriminate Hdamage|]).
    by apply elem_of_nil in Hin.
Defined.

Lemma report_lists_partition (l : list IndexedResult) :
  filter (fun r => negb (imageComplete (result r))) l
  ++ filter (fun r => imageComplete (result r) && hasDamage (result r)) l
  ++ filter (fun r => imageComplete (result r) && negb (hasDamage (result r))) l
  ≡ₚ l.
Proof.
  induction l as [|r l IH]; [done|].
  rewrite !filter_cons.
  destruct (imageComplete (result r)), (hasDamage (result r)); cbn;
    destruct (decide True) as [_|Hno]; try (by destruct Hno);
    destruct (decide False) as [Hno|_]; try (by destruct Hno).
  - rewrite <- app_comm_cons, <- Permutation_middle. by constructor.
  - rewrite app_assoc, <- Permutation_middle, <- app_assoc. by constructor.
  - rewrite <- app_comm_cons. by constructor.
  - rewrite <- app_comm_cons. by constructor.
Qed.

Lemma indexed_lookup (results : list GeminiAnalysisResult) r :
  r ∈ indexed results -> results !! ReportScreen.index r = Some (result r).
Proof.
  unfold indexed. intros (i & Hi)%list_elem_of_lookup_1.
  rewrite list_lookup_imap in Hi.
  destruct (results !! i) as [x|] eqn:Hx; [|done].
  injection Hi as <-. done.
Qed.

(** X25: the three lists of the report screen split the results: every photo
    is in exactly one of "verification failed", "damage detected" and
    "passed", and each entry carries the photo's own position. *)
Theorem reportScreen_partition (results : list GeminiAnalysisResult) :
  (ReportScreen.index <$> rejectedPhotos results)
  ++ (ReportScreen.index <$> damagedPhotos results)
  ++ (ReportScreen.index <$> cleanPhotos results)
  ≡ₚ seq 0 (length results)
  /\ (length (rejectedPhotos results) + length (damagedPhotos results)
      + length (cleanPhotos results) = length results)%nat
  /\ Forall (fun r => results !! ReportScreen.index r = Some (result r))
       (rejectedPhotos results ++ damagedPhotos results ++ cleanPhotos results).
Proof.
  unfold rejectedPhotos, damagedPhotos, cleanPhotos.
  pose proof (report_lists_partition (indexed results)) as Hperm.
  assert (Hindex : ReportScreen.index <$> indexed results = seq 0 (length results)).
  { unfold indexed. rewrite fmap_imap. cbn. unfold compose. cbn.
    rewrite (imap_seq_0 results (fun j => j)). apply list_fmap_id. }
  split; [|split].
  - rewrite <- !fmap_app, Hperm. by rewrite Hindex.
  - apply Permutation_length in Hperm. rewrite !length_app in Hperm.
    unfold indexed in Hperm at 4. rewrite length_imap in Hperm. lia.
  - apply Forall_forall. intros r Hin. apply indexed_lookup.
    rewrite <- Hperm. exact Hin.
Qed.

(** X26: the report screen always has a stage to show: the default active
    stage exists; it is the car's latest stage when the car has stages,
    and otherwise a stage numbered 1 made of the results passed with the
    route (["[]"] when none were passed) and the car's current photos. *)
Theorem displayedReports_active (currentCar : option CarsContext.Car)
    (initialResultsString : option string) (now : Z) :
  exists r,
    activeReport (displayedReports currentCar initialResultsString now)
      (initialActiveStageIndex (displayedReports currentCar initialResultsString now))
    = Some r
    /\ (forall car, currentCar = Some car -> (0 < CarsContext.stageCount car)%nat ->
          last (orArray (CarsContext.reports car) []) = Some r)
    /\ ((forall car, currentCar = Some car -> CarsContext.stageCount car = 0%nat) ->
          r = {| CarsContext.stage := 1;
                 CarsContext.timestamp := now;
                 CarsContext.results := orString initialResultsString "[]";
                 CarsContext.comparison := None;
                 CarsContext.report_photos :=
                   from_option CarsContext.photos [] currentCar |}).
Proof.
  unfold activeReport, initialActiveStageIndex, displayedReports, CarsContext.stageCount.
  destruct currentCar as [car|]; cbn [mbind option_bind from_option].
  - destruct (CarsContext.reports car) as [carReports|] eqn:Hreports; cbn [orArray].
    + destruct carReports as [|r0 rest] eqn:Hlist.
      * cbn. eexists. split; [reflexivity|]. split; [|done].
        intros car' [= <-]. rewrite Hreports. cbn. lia.
      * cbn [length Nat.ltb Nat.leb].
        destruct (last (r0 :: rest)) as [r|] eqn:Hlast.
        -- exists r. split; [|split].
           ++ rewrite last_lookup in Hlast. rewrite <- Hlast. f_equal. cbn. lia.
           ++ intros car' [= <-] _. by rewrite Hreports.
           ++ intros Hzero. specialize (Hzero car eq_refl).
              rewrite Hreports in Hzero. discriminate Hzero.
        -- by apply last_None in Hlast.
    + cbn. eexists. split; [reflexivity|]. split; [|done].
      intros car' [= <-]. rewrite Hreports. cbn. lia.
  - cbn. eexists. split; [reflexivity|]. split; [|done]. by intros car' [=].
Qed.

End DamageReportMore.

(** ** More on photo scoring *)

Section PhotoScoringMore.
Import Js Effects CarDetection.

(** X27: [getExpectedAngle] and [PHOTO_CONFIG] agree on the angle expected for
    each of the nine slots, and [getExpectedAngle] answers [Front] for
    every other number. *)
Theorem getExpectedAngle_matches_PHOTO_CONFIG :
  (forall (i : nat) config,
     PHOTO_CONFIG !! i = Some config ->
     getExpectedAngle (Z.of_nat i) = expectedAngle config)
  /\ (forall photoNumber, photoNumber < 0 \/ 8 < photoNumber ->
        getExpectedAngle photoNumber = Front).
Proof.
  split.
  - intros i config.
    do 9 (destruct i as [|i]; [by intros [= <-]|]). by intros [=].
  - intros photoNumber Hout. unfold getExpectedAngle, angleMap.
    destruct photoNumber as [|p|p]; [lia| |done].
    destruct p as [[[[p|p|]|[p|p|]|]|[[p|p|]|[p|p|]|]|]|[[[p|p|]|[p|p|]|]|[[p|p|]|[p|p|]|]|]|];
      try reflexivity; lia.
Qed.

Lemma checkFraming_optimal imageUri :
  returns (checkFraming imageUri)
    (fun check => 0 <= FramingCheck.score check <= 25
                  /\ (FramingCheck.isOptimal check = true
                      -> FramingCheck.score check = 24)).
Proof.
  apply returns_tryCatch.
  eapply returns_bind; [apply analyzeImageQuality_returns|]. intros analysis _.
  destruct (ImageAnalysis.resolution _);
    repeat match goal with
           | |- returns (if ?b then _ else _) _ => destruct b
           end; apply returns_ret; cbn; (split; [lia|]); done.
Qed.

Lemma checkLighting_optimal imageUri :
  returns (checkLighting imageUri)
    (fun check => 0 <= LightingCheck.score check <= 25
                  /\ (LightingCheck.isOptimal check = true
                      -> LightingCheck.score check = 24)).
Proof.
  apply returns_tryCatch.
  eapply returns_bind; [apply analyzeBrightness_returns|]. intros brightAnalysis _.
  cbv zeta.
  repeat match goal with
         | |- context [if ?b then _ else _] => destruct b
         end; apply returns_ret; cbn; (split; [lia|]); done.
Qed.

Lemma checkQuality_optimal imageUri :
  returns (checkQuality imageUri)
    (fun check => 0 <= QualityCheck.score check <= 25
                  /\ (QualityCheck.isOptimal check = true
                      -> QualityCheck.score check = 24)).
Proof.
  apply returns_tryCatch.
  eapply returns_bind; [apply analyzeBlur_returns|]. intros blurAnalysis _.
  eapply returns_bind; [apply analyzeImageQuality_returns|]. intros qualityAnalysis _.
  cbv zeta.
  repeat match goal with
         | |- context [if ?b then _ else _] => destruct b
         end; apply returns_ret; cbn; (split; [lia|]); done.
Qed.

(** X28: a result of [detectCar] says [carDetected] exactly when it says
    [isAccepted]. An accepted photo gets the "Perfect!" message with its
    score. A rejected photo always gets a specific hint: the unclear-photo
    message, the wrong-angle message naming the expected and the detected
    angle, or the hint of a check that was not optimal, framing before
    lighting before quality; the generic "Photo quality is too low"
    message is never given. *)
Theorem detectCar_hint imageUri expectedAngle w :
  exists r w',
    detectCar imageUri expectedAngle w = (Normal r, w')
    /\ carDetected r = isAccepted r
    /\ (isAccepted r = true ->
          hint r = "Perfect! Quality Score: " +:+ toString (totalScore r) +:+ "/100")
    /\ (isAccepted r = false ->
          hint r = "Photo is too unclear or not a car. Please take a clear photo of the car."
          \/ (exists expected detected,
                expectedAngle = Some expected /\ detected <> expected
                /\ hint r = "Wrong angle! Expected " +:+ angleNames expected
                            +:+ ", but detected " +:+ angleNames detected
                            +:+ ". Please take a photo from the correct angle.")
          \/ (exists check, framing r = Some check
                /\ FramingCheck.isOptimal check = false
                /\ hint r = FramingCheck.hint check)
          \/ (exists check, lighting r = Some check
                /\ LightingCheck.isOptimal check = false
                /\ (forall f, framing r = Some f -> FramingCheck.isOptimal f = true)
                /\ hint r = LightingCheck.hint check)
          \/ (exists check, quality r = Some check
                /\ QualityCheck.isOptimal check = false
                /\ (forall f, framing r = Some f -> FramingCheck.isOptimal f = true)
                /\ (forall l, lighting r = Some l -> LightingCheck.isOptimal l = true)
                /\ hint r = QualityCheck.hint check)).
Proof.
  revert w.
  match goal with
  | |- forall w, exists r w', _ = _ /\ @?P r => change (returns (detectCar imageUri expectedAngle) P)
  end.
  apply returns_tryCatch.
  eapply returns_bind; [apply analyzeImageQuality_returns|].
  intros qualityAnalysis _.
  destruct (negb _ || _).
  { apply returns_ret. cbn. split; [done|]. split; [done|]. intros _. by left. }
  eapply returns_bind; [apply detectAngle_returns|]. intros angle _.
  destruct (wrongAngle expectedAngle angle) eqn:Hwrong.
  { apply returns_ret. cbn. split; [done|]. split; [done|]. intros _. right; left.
    destruct expectedAngle as [expected|]; [|done]. cbn in Hwrong.
    apply bool_decide_eq_true in Hwrong. by exists expected, angle. }
  cbv zeta.
  eapply returns_bind; [apply checkFraming_optimal|]. intros f [Hf Hfopt].
  eapply returns_bind; [apply checkLighting_optimal|]. intros l [Hl Hlopt].
  eapply returns_bind; [apply checkQuality_optimal|]. intros q [Hq Hqopt].
  apply returns_ret. cbn. unfold QUALITY_THRESHOLD.
  split; [done|].
  destruct (65 <=? 25 + FramingCheck.score f + LightingCheck.score l
                   + QualityCheck.score q) eqn:Haccepted; cbn.
  { split; [done|]. discriminate. }
  split; [discriminate|]. intros _. apply Z.leb_gt in Haccepted.
  destruct (FramingCheck.isOptimal f) eqn:Hfo; cbn.
  2:{ right; right; left. by exists f. }
  destruct (LightingCheck.isOptimal l) eqn:Hlo; cbn.
  2:{ right; right; right; left. exists l. repeat split; [done|].
      by intros f' [= <-]. }
  destruct (QualityCheck.isOptimal q) eqn:Hqo; cbn.
  2:{ right; right; right; right. exists q. repeat split; [done| |].
      - by intros f' [= <-].
      - by intros l' [= <-]. }
  specialize (Hfopt eq_refl). specialize (Hlopt eq_refl). specialize (Hqopt eq_refl).
  lia.
Qed.






End PhotoScoringMore.
